(** * bitset.c : compact enumerable bit array

    A shallow embedding of [bitset.c] and the properties of its storage
    operations and of its two enumeration forms.

    Conventions of the embedding.
    - [uint64_t] values are integers in [[0, 2^64)]; the only operations
      that can leave the range ([<<] and [~]) are reduced with [wrap64].
    - [int] values are integers in [[-2^31, 2^31)]; [+=] is reduced with
      [wrap_int].
    - A pointer into [chunks] is the offset, in words, from [bs->chunks].
    - A scan only reads memory.  It sees the words of the bitset inside
      the allocation and an arbitrary word [beyond k] at every offset [k]
      outside of it, and it records the offset of every word it reads, in
      order, so that a read outside the allocation is visible both in the
      trace and in what the scan goes on to compute.
    - A store or a load of the storage operations outside the allocation,
      and a shift by a count outside [[0, 64)], have no defined behaviour:
      the operation ends in [Undefined].
    - Loops run on fuel; the entry points supply one unit for each position
      up to [capacity] and one more, which the theorems show to be enough
      whenever the index stays in the range of [int]. *)

From Stdlib Require Import ZArith Lia Bool Sorted.
From stdpp Require Import base numbers option list.

Local Open Scope Z_scope.

(** ** Machine integers *)

Definition wrap64 (x : Z) : Z := x mod 2 ^ 64.

Definition INT_MAX : Z := 2 ^ 31 - 1.

Definition wrap_int (x : Z) : Z := (x + 2 ^ 31) mod 2 ^ 32 - 2 ^ 31.

(** [a + b] on [int]. *)
Definition int_add (a b : Z) : Z := wrap_int (a + b).

(** [w << n] on [uint64_t], for a count in range. *)
Definition shl64 (w n : Z) : Z := wrap64 (Z.shiftl w n).

(** [~w] on [uint64_t]. *)
Definition not64 (w : Z) : Z := wrap64 (Z.lnot w).

(** ** Outcomes of the storage operations *)

Inductive error : Type :=
| AllocationFailure   (* malloc returned NULL: message, exit(1) *)
| IndexOutOfRange.    (* index_check failed: message, exit(1) *)

Inductive undefined : Type :=
| ShiftCount (n : Z)          (* 1ull << n with n outside [0, 64) *)
| OutsideStorage (k : Z).     (* chunks[k] outside the allocation *)

Inductive outcome (A : Type) : Type :=
| Done (a : A)
| Exit (e : error)
| Undefined (u : undefined).

Arguments Done {A} a.
Arguments Exit {A} e.
Arguments Undefined {A} u.

#[global] Instance outcome_ret : MRet outcome := λ A a, Done a.
#[global] Instance outcome_bind : MBind outcome := λ A B f x,
  match x with
  | Done a => f a
  | Exit e => Exit e
  | Undefined u => Undefined u
  end.

(** ** The bitset *)

(** Modelled from the spec: the declaration of [BitSet] is in [bitset.h],
    which is not part of the sources.  The fields are the ones [bitset.c]
    uses: [capacity] and [nchunks] of type [int], and [chunks], the
    allocated block of [uint64_t] words. *)
Record BitSet : Type := {
  capacity : Z;
  nchunks : Z;
  chunks : list Z
}.

Definition bitset_reset (self : BitSet) : BitSet :=
  {| capacity := capacity self;
     nchunks := nchunks self;
     chunks := replicate (Z.to_nat (nchunks self)) 0 |}.

(** [block] is what [malloc] returned for the chunks: [None] for NULL, or
    the words of the fresh block, whose contents are arbitrary;
    [bitset_reset] overwrites all of them. *)
Definition bitset_init (block : option (list Z)) (capacity : Z) : outcome BitSet :=
  let nchunks := Z.quot capacity 64 in
  let nchunks := if Z.rem capacity 64 =? 0 then nchunks else nchunks + 1 in
  match block with
  | None => Exit AllocationFailure
  | Some ws =>
      Done (bitset_reset {| capacity := capacity; nchunks := nchunks; chunks := ws |})
  end.

(** [self_ok] tells whether [malloc] returned a block for the struct. *)
Definition bitset_new (self_ok : bool) (block : option (list Z)) (capacity : Z)
  : outcome BitSet :=
  if self_ok then bitset_init block capacity else Exit AllocationFailure.

Definition index_check (self : BitSet) (index : Z) : outcome unit :=
  if index >=? capacity self then Exit IndexOutOfRange else Done tt.

(** [1ull << n] *)
Definition bit_mask (n : Z) : outcome Z :=
  if (n <? 0) || (64 <=? n) then Undefined (ShiftCount n) else Done (shl64 1 n).

(** [self->chunks[k]] as a value *)
Definition chunk_load (self : BitSet) (k : Z) : outcome Z :=
  if k <? 0 then Undefined (OutsideStorage k)
  else match chunks self !! Z.to_nat k with
       | Some w => Done w
       | None => Undefined (OutsideStorage k)
       end.

(** [self->chunks[k] = w] *)
Definition chunk_store (self : BitSet) (k w : Z) : outcome BitSet :=
  if k <? 0 then Undefined (OutsideStorage k)
  else match chunks self !! Z.to_nat k with
       | Some _ =>
           Done {| capacity := capacity self;
                   nchunks := nchunks self;
                   chunks := <[Z.to_nat k := w]> (chunks self) |}
       | None => Undefined (OutsideStorage k)
       end.

Definition bitset_set (self : BitSet) (index : Z) : outcome BitSet :=
  _ ← index_check self index;
  bitmask ← bit_mask (Z.rem index 64);
  w ← chunk_load self (Z.quot index 64);
  chunk_store self (Z.quot index 64) (Z.lor w bitmask).

Definition bitset_clear (self : BitSet) (index : Z) : outcome BitSet :=
  _ ← index_check self index;
  shifted ← bit_mask (Z.rem index 64);
  let bitmask := not64 shifted in
  w ← chunk_load self (Z.quot index 64);
  chunk_store self (Z.quot index 64) (Z.land w bitmask).

Definition bitset_get (self : BitSet) (index : Z) : outcome bool :=
  _ ← index_check self index;
  bitmask ← bit_mask (Z.rem index 64);
  w ← chunk_load self (Z.quot index 64);
  mret (negb (Z.land w bitmask =? 0)).

(** ** Scans: fuel, and the trace of the words read *)

(** A scan that ends yields the offsets of the words it read, in order, and
    its result; [None] is a scan that ran out of fuel. *)
Definition scan (A : Type) : Type := option (list Z * A).

#[global] Instance scan_ret : MRet scan := λ A a, Some ([], a).
#[global] Instance scan_bind : MBind scan := λ A B f x,
  match x with
  | None => None
  | Some (t1, a) =>
      match f a with
      | None => None
      | Some (t2, b) => Some (t1 ++ t2, b)
      end
  end.

(** [*chunk] *)
Definition load (mem : Z → Z) (chunk : Z) : scan Z := Some ([chunk], mem chunk).

(** The memory a scan of [bs] sees at word offset [k] from [bs->chunks]. *)
Definition storage (beyond : Z → Z) (bs : BitSet) (k : Z) : Z :=
  if k <? 0 then beyond k
  else match chunks bs !! Z.to_nat k with
       | Some w => w
       | None => beyond k
       end.

(** The inner loop of [bitset_next_set_bit] and of [bitset_iter_next], which
    the two functions spell out identically:
    [while (!*chunk) { ++chunk; index += 64; if (index >= capacity) return -1; }].
    The flag of the result tells whether the function returned -1 from
    inside the loop; [chunk] and [index] are as the loop left them. *)
Fixpoint spin_forward (fuel : nat) (mem : Z → Z) (capacity chunk index : Z)
  : scan (bool * Z * Z) :=
  match fuel with
  | O => None
  | S fuel =>
      w ← load mem chunk;
      if w =? 0 then
        let chunk := chunk + 1 in
        let index := int_add index 64 in
        if index >=? capacity then mret (true, chunk, index)
        else spin_forward fuel mem capacity chunk index
      else mret (false, chunk, index)
  end.

(** The [while (index < bs->capacity)] loop of [bitset_next_set_bit]. *)
Fixpoint next_set_bit_loop (fuel : nat) (mem : Z → Z) (capacity chunk mask index : Z)
  : scan Z :=
  match fuel with
  | O => None
  | S fuel =>
      if index <? capacity then
        w ← load mem chunk;
        if negb (Z.land mask w =? 0) then mret index
        else
          let mask := shl64 mask 1 in
          let index := int_add index 1 in
          if mask =? 0 then
            '(returned, chunk, index) ← spin_forward fuel mem capacity (chunk + 1) index;
            if returned : bool then mret (-1)
            else next_set_bit_loop fuel mem capacity chunk 1 index
          else next_set_bit_loop fuel mem capacity chunk mask index
      else mret (-1)
  end.

(** Fuel for a scan that starts at [index]: one unit for each position up
    to [capacity], and one for the last test of the loop condition. *)
Definition scan_fuel (capacity index : Z) : nat := S (Z.to_nat (capacity - index)).

Definition bitset_next_set_bit (beyond : Z → Z) (bs : BitSet) (index : Z) : scan Z :=
  next_set_bit_loop (scan_fuel (capacity bs) index) (storage beyond bs) (capacity bs)
    (Z.shiftr index 6) (shl64 1 (Z.land index 63)) index.

(** Modelled from the spec: the declaration of [BitSetIterator] is in
    [bitset.h], which is not part of the sources.  The fields are the ones
    [bitset.c] uses: the pointer [chunk] into the words of the bitset, the
    [uint64_t] [mask], and the [int]s [index] and [capacity]. *)
Record BitSetIterator : Type := {
  iter_chunk : Z;
  iter_mask : Z;
  iter_index : Z;
  iter_capacity : Z
}.

Definition bitset_iter_begin (bs : BitSet) : BitSetIterator :=
  {| iter_chunk := -1; iter_mask := 0; iter_index := -1; iter_capacity := capacity bs |}.

(** The [while (bsi->index < bsi->capacity)] loop of [bitset_iter_next]; the
    result is the iterator as the call leaves it, and the value returned. *)
Fixpoint iter_next_loop (fuel : nat) (mem : Z → Z) (bsi : BitSetIterator)
  : scan (BitSetIterator * Z) :=
  match fuel with
  | O => None
  | S fuel =>
      if iter_index bsi <? iter_capacity bsi then
        let mask := shl64 (iter_mask bsi) 1 in
        let index := int_add (iter_index bsi) 1 in
        '(returned, bsi) ←
          (if mask =? 0 then
             '(returned, chunk, index) ←
               spin_forward fuel mem (iter_capacity bsi) (iter_chunk bsi + 1) index;
             mret (returned,
                   {| iter_chunk := chunk; iter_mask := 1; iter_index := index;
                      iter_capacity := iter_capacity bsi |})
           else
             mret (false,
                   {| iter_chunk := iter_chunk bsi; iter_mask := mask;
                      iter_index := index; iter_capacity := iter_capacity bsi |}));
        if returned : bool then mret (bsi, -1)
        else
          w ← load mem (iter_chunk bsi);
          if negb (Z.land (iter_mask bsi) w =? 0) then mret (bsi, iter_index bsi)
          else iter_next_loop fuel mem bsi
      else mret (bsi, -1)
  end.

(** The iterator points into the words of its bitset: [mem] is the memory
    around [bs->chunks] at the time of the call. *)
Definition bitset_iter_next (mem : Z → Z) (bsi : BitSetIterator)
  : scan (BitSetIterator * Z) :=
  iter_next_loop (scan_fuel (iter_capacity bsi) (iter_index bsi)) mem bsi.

(** The values [elem] takes in the loop of [bitset_enumerate],
    [while ((elem = bitset_iter_next(&bsi)) >= 0)], the last, negative one
    left out. *)
Fixpoint enumerate_loop (fuel : nat) (mem : Z → Z) (bsi : BitSetIterator)
  : scan (list Z) :=
  match fuel with
  | O => None
  | S fuel =>
      '(bsi, elem) ← bitset_iter_next mem bsi;
      if elem >=? 0 then
        rest ← enumerate_loop fuel mem bsi;
        mret (elem :: rest)
      else mret []
  end.

(** The values [elem] takes in the loop of [bitset_enumerate2],
    [for (elem = bitset_next_set_bit(self, 0); elem >= 0;
          elem = bitset_next_set_bit(self, elem + 1))]. *)
Fixpoint enumerate2_loop (fuel : nat) (beyond : Z → Z) (self : BitSet) (elem : Z)
  : scan (list Z) :=
  match fuel with
  | O => None
  | S fuel =>
      if elem >=? 0 then
        next ← bitset_next_set_bit beyond self (int_add elem 1);
        rest ← enumerate2_loop fuel beyond self next;
        mret (elem :: rest)
      else mret []
  end.

(** A loop of either form runs at most once for each position, once more to
    get the negative value and, for the cursor, once more when memory
    beyond the storage made it yield [capacity]. *)
Definition enumerate_fuel (capacity : Z) : nat := S (S (S (Z.to_nat capacity))).

Definition enumerate_elems (beyond : Z → Z) (self : BitSet) : scan (list Z) :=
  enumerate_loop (enumerate_fuel (capacity self)) (storage beyond self)
    (bitset_iter_begin self).

Definition enumerate2_elems (beyond : Z → Z) (self : BitSet) : scan (list Z) :=
  elem ← bitset_next_set_bit beyond self 0;
  enumerate2_loop (enumerate_fuel (capacity self)) beyond self elem.

(** [total += elem] over the elements. *)
Definition total (elems : list Z) : Z := foldl int_add 0 elems.

Definition bitset_enumerate (beyond : Z → Z) (self : BitSet) : scan Z :=
  elems ← enumerate_elems beyond self;
  mret (total elems).

Definition bitset_enumerate2 (beyond : Z → Z) (self : BitSet) : scan Z :=
  elems ← enumerate2_elems beyond self;
  mret (total elems).

(** ** The remaining functions *)

(** The loop of [bitset_dump],
    [for (int i = 0; i < self->capacity; ++i) if (bitset_get(self, i)) printf(i);],
    as the list of the numbers it prints.  [None] is a loop out of fuel; an
    access of [bitset_get] that ends the program, or has no defined
    behaviour, ends the loop with it. *)
Fixpoint dump_loop (fuel : nat) (self : BitSet) (i : Z) : option (outcome (list Z)) :=
  match fuel with
  | O => None
  | S fuel =>
      if i <? capacity self then
        match bitset_get self i with
        | Done b =>
            match dump_loop fuel self (int_add i 1) with
            | Some (Done printed) => Some (Done (if b then i :: printed else printed))
            | stopped => stopped
            end
        | Exit e => Some (Exit e)
        | Undefined u => Some (Undefined u)
        end
      else Some (Done [])
  end.

Definition bitset_dump (self : BitSet) : option (outcome (list Z)) :=
  dump_loop (scan_fuel (capacity self) 0) self 0.






(** ** What the operations are specified against *)

(** The bit stored at position [i]: bit [i mod 64] of word [i / 64]. *)
Definition stored_bit (bs : BitSet) (i : Z) : bool :=
  Z.testbit (default 0 (chunks bs !! Z.to_nat (i / 64))) (i mod 64).

(** A bitset as the data model has it: a capacity that is a non-negative
    [int], [ceil(capacity / 64)] words of 64 bits, and no bit stored at a
    position from [capacity] on. *)
Record wf (bs : BitSet) : Prop := {
  wf_capacity : 0 ≤ capacity bs ≤ INT_MAX;
  wf_nchunks : nchunks bs = (capacity bs + 63) / 64;
  wf_length : Z.of_nat (length (chunks bs)) = nchunks bs;
  wf_words : Forall (λ w, 0 ≤ w < 2 ^ 64) (chunks bs);
  wf_padding : ∀ i, capacity bs ≤ i < 64 * nchunks bs → stored_bit bs i = false
}.

(** The bitsets that construction and the mutators produce, when the
    indices are valid. *)
Inductive reachable : BitSet → Prop :=
| reachable_init block c bs :
    0 ≤ c ≤ INT_MAX → bitset_init (Some block) c = Done bs → reachable bs
| reachable_new block c bs :
    0 ≤ c ≤ INT_MAX → bitset_new true (Some block) c = Done bs → reachable bs
| reachable_set bs i bs' :
    reachable bs → 0 ≤ i < capacity bs → bitset_set bs i = Done bs' → reachable bs'
| reachable_clear bs i bs' :
    reachable bs → 0 ≤ i < capacity bs → bitset_clear bs i = Done bs' → reachable bs'
| reachable_reset bs :
    reachable bs → reachable (bitset_reset bs).

(** The positions of [[0, capacity)] whose bit is stored, in ascending order. *)
Definition set_indices (bs : BitSet) : list Z :=
  filter (λ i, stored_bit bs i) (seqZ 0 (capacity bs)).

(** The first element of [l] that is at least [k], as the scan reports it:
    -1 when there is none. *)
Definition first_from (k : Z) (l : list Z) : Z :=
  default (-1) (head (filter (λ i, k ≤ i) l)).

(** The word at offset [k] from [bs->chunks] is one of the allocated words. *)
Definition in_storage (bs : BitSet) (k : Z) : Prop := 0 ≤ k < nchunks bs.

(** The cursor [bsi] over [bs] stands at position [i]: before the first
    position when [i] is -1, and otherwise with its word and mask at [i]. *)
Definition positioned (bs : BitSet) (bsi : BitSetIterator) (i : Z) : Prop :=
  iter_capacity bsi = capacity bs ∧ iter_index bsi = i ∧
  iter_chunk bsi = i / 64 ∧
  iter_mask bsi = if i =? -1 then 0 else 2 ^ (i mod 64).

(** No bit is stored at the positions of [[a, b)]. *)
Definition empty_between (bs : BitSet) (a b : Z) : Prop :=
  ∀ i, a ≤ i < b → stored_bit bs i = false.

(** [r] is what a scan of [bs] from [k] has to return. *)
Definition next_spec (bs : BitSet) (k r : Z) : Prop :=
  (r = -1 ∧ empty_between bs k (capacity bs)) ∨
  (k ≤ r < capacity bs ∧ stored_bit bs r = true ∧ empty_between bs k r).

(** A block as [malloc] may return it for a bitset of capacity [c]: one
    word for each chunk, none of them zero. *)
Definition fresh_block (c : Z) : list Z :=
  replicate (Z.to_nat ((c + 63) / 64)) 12297829382473034410.

(** The bitset of capacity [c] with the bits of [l] set, built by the
    operations themselves. *)
Definition bitset_of (c : Z) (l : list Z) : outcome BitSet :=
  foldl (λ acc i, bs ← acc; bitset_set bs i)
        (bitset_new true (Some (fresh_block c)) c) l.

(** The stored positions from [k] on, ascending. *)
Definition set_indices_from (bs : BitSet) (k : Z) : list Z :=
  filter (λ i, stored_bit bs i) (seqZ k (capacity bs - k)).

(** The value a scan ends with. *)
Definition result {A} (s : scan A) : option A :=
  match s with
  | Some (_, a) => Some a
  | None => None
  end.

(** The offsets of the words a scan read. *)
Definition reads {A} (s : scan A) : option (list Z) :=
  match s with
  | Some (t, _) => Some t
  | None => None
  end.

(** The sum of a list of indices, in the integers. *)
Definition sum_indices (l : list Z) : Z := foldr Z.add 0 l.

(** [l] is strictly ascending. *)
Definition ascending (l : list Z) : Prop := StronglySorted Z.lt l.

(** ** Concrete bitsets *)

(** Capacity 10 with the bits 0, 3 and 9 stored. *)
Definition bs_0_3_9 : BitSet := {| capacity := 10; nchunks := 1; chunks := [521] |}.


(** Capacity [INT_MAX], no bit stored: what [bitset_new] gives. *)
Definition bs_int_max : BitSet :=
  bitset_reset {| capacity := 2147483647; nchunks := 33554432;
                  chunks := fresh_block 2147483647 |}.

(** * Proof steps *)

(** Settles an equation between the bits of two bitsets once the bits are
    expressed in those of a common one. *)
Ltac bits_eq :=
  repeat match goal with
         | |- context [?a =? ?b] => destruct (Z.eqb_spec a b); try lia
         end;
  cbn; repeat match goal with
              | |- context [stored_bit ?bs ?i] => destruct (stored_bit bs i)
              end;
  cbn; congruence.


(** * Properties *)

(** ** Machine integers and single bits *)

Lemma wrap_int_small x : - 2 ^ 31 ≤ x ≤ INT_MAX → wrap_int x = x.
Proof.
  unfold wrap_int, INT_MAX. intros Hx.
  rewrite Z.mod_small; lia.
Qed.

Lemma int_add_small a b : - 2 ^ 31 ≤ a + b ≤ INT_MAX → int_add a b = a + b.
Proof. apply wrap_int_small. Qed.

Lemma shl64_one n : 0 ≤ n < 64 → shl64 1 n = 2 ^ n.
Proof.
  intros Hn. unfold shl64, wrap64.
  rewrite Z.shiftl_1_l. apply Z.mod_small.
  split; [apply Z.pow_nonneg; lia | apply Z.pow_lt_mono_r; lia].
Qed.

Lemma shl64_bit b :
  0 ≤ b < 64 → shl64 (2 ^ b) 1 = if b =? 63 then 0 else 2 ^ (b + 1).
Proof.
  intros Hb. unfold shl64, wrap64.
  rewrite Z.shiftl_mul_pow2 by lia.
  rewrite <- Z.pow_add_r by lia.
  destruct (Z.eqb_spec b 63) as [->|Hne]; [reflexivity|].
  apply Z.mod_small.
  split; [apply Z.pow_nonneg; lia | apply Z.pow_lt_mono_r; lia].
Qed.

Lemma pow2_nonzero b : 0 ≤ b → 2 ^ b ≠ 0.
Proof. intros Hb. apply Z.pow_nonzero; lia. Qed.

Lemma land_bit_l b w :
  0 ≤ b → Z.land (2 ^ b) w = if Z.testbit w b then 2 ^ b else 0.
Proof.
  intros Hb. apply Z.bits_inj'. intros n Hn.
  rewrite Z.land_spec, Z.pow2_bits_eqb by lia.
  destruct (Z.eqb_spec b n) as [->|Hne].
  - destruct (Z.testbit w n); [|now rewrite Z.bits_0].
    rewrite Z.pow2_bits_eqb by lia. now rewrite Z.eqb_refl.
  - destruct (Z.testbit w b); [|now rewrite Z.bits_0].
    rewrite Z.pow2_bits_eqb by lia.
    destruct (Z.eqb_spec b n); [lia | reflexivity].
Qed.

Lemma test_mask b w :
  0 ≤ b → negb (Z.land (2 ^ b) w =? 0) = Z.testbit w b.
Proof.
  intros Hb. rewrite land_bit_l by lia.
  destruct (Z.testbit w b); [|reflexivity].
  destruct (Z.eqb_spec (2 ^ b) 0) as [E|_]; [|reflexivity].
  now apply pow2_nonzero in E.
Qed.

Lemma test_mask_r b w :
  0 ≤ b → negb (Z.land w (2 ^ b) =? 0) = Z.testbit w b.
Proof. intros Hb. rewrite Z.land_comm. now apply test_mask. Qed.

Lemma word_bits_high w n : 0 ≤ w < 2 ^ 64 → 64 ≤ n → Z.testbit w n = false.
Proof.
  intros Hw Hn. rewrite <- (Z.mod_small w (2 ^ 64)) by lia.
  apply Z.mod_pow2_bits_high. lia.
Qed.

Lemma word_of_bits w :
  0 ≤ w → (∀ n, 64 ≤ n → Z.testbit w n = false) → 0 ≤ w < 2 ^ 64.
Proof.
  intros Hw Hhigh.
  assert (E : w mod 2 ^ 64 = w).
  { apply Z.bits_inj'. intros n Hn.
    destruct (Z.lt_ge_cases n 64).
    - now rewrite Z.mod_pow2_bits_low by lia.
    - rewrite Z.mod_pow2_bits_high by lia. now rewrite Hhigh by lia. }
  rewrite <- E. apply Z.mod_pos_bound. lia.
Qed.

Lemma not64_bits m n :
  0 ≤ n → Z.testbit (not64 m) n = (n <? 64) && negb (Z.testbit m n).
Proof.
  intros Hn. unfold not64, wrap64.
  destruct (Z.ltb_spec n 64).
  - rewrite Z.mod_pow2_bits_low by lia. now rewrite Z.lnot_spec by lia.
  - now rewrite Z.mod_pow2_bits_high by lia.
Qed.

Lemma lor_word w m : 0 ≤ w < 2 ^ 64 → 0 ≤ m < 2 ^ 64 → 0 ≤ Z.lor w m < 2 ^ 64.
Proof.
  intros Hw Hm. apply word_of_bits.
  - apply Z.lor_nonneg. lia.
  - intros n Hn. rewrite Z.lor_spec, !word_bits_high by lia. reflexivity.
Qed.

Lemma land_word w m : 0 ≤ w < 2 ^ 64 → 0 ≤ Z.land w m < 2 ^ 64.
Proof.
  intros Hw. apply word_of_bits.
  - apply Z.land_nonneg. lia.
  - intros n Hn. rewrite Z.land_spec, word_bits_high by lia. reflexivity.
Qed.

Lemma pow2_word b : 0 ≤ b < 64 → 0 ≤ 2 ^ b < 2 ^ 64.
Proof.
  intros Hb. split; [apply Z.pow_nonneg; lia | apply Z.pow_lt_mono_r; lia].
Qed.

(** ** The storage operations on a valid index *)

Lemma index_split i :
  0 ≤ i → Z.quot i 64 = i / 64 ∧ Z.rem i 64 = i mod 64.
Proof.
  intros Hi. split; [apply Z.quot_div_nonneg | apply Z.rem_mod_nonneg]; lia.
Qed.

Lemma chunk_in_storage bs i :
  wf bs → 0 ≤ i < capacity bs → 0 ≤ i / 64 < nchunks bs.
Proof.
  intros Hwf Hi. rewrite (wf_nchunks bs Hwf).
  split; [apply Z.div_pos; lia|].
  apply Z.div_lt_upper_bound; [lia|].
  pose proof (Z.mul_div_le (capacity bs + 63) 64).
  pose proof (Z.mod_pos_bound (capacity bs + 63) 64).
  pose proof (Z.div_mod (capacity bs + 63) 64). lia.
Qed.

Lemma chunk_lookup bs i :
  wf bs → 0 ≤ i < capacity bs →
  ∃ w, chunks bs !! Z.to_nat (i / 64) = Some w ∧ 0 ≤ w < 2 ^ 64.
Proof.
  intros Hwf Hi.
  pose proof (chunk_in_storage bs i Hwf Hi) as Hc.
  destruct (lookup_lt_is_Some_2 (chunks bs) (Z.to_nat (i / 64))) as [w Hw].
  { pose proof (wf_length bs Hwf). lia. }
  exists w. split; [assumption|].
  exact (proj1 (Forall_lookup _ _) (wf_words bs Hwf) _ _ Hw).
Qed.

Lemma index_check_valid bs i : i < capacity bs → index_check bs i = Done tt.
Proof.
  intros Hi. unfold index_check.
  destruct (Z.geb_spec i (capacity bs)); [lia | reflexivity].
Qed.

Lemma bit_mask_valid i : 0 ≤ i → bit_mask (Z.rem i 64) = Done (2 ^ (i mod 64)).
Proof.
  intros Hi. destruct (index_split i Hi) as [_ ->].
  pose proof (Z.mod_pos_bound i 64). unfold bit_mask.
  destruct (Z.ltb_spec (i mod 64) 0); [lia|].
  destruct (Z.leb_spec 64 (i mod 64)); [lia|].
  cbn [orb]. now rewrite shl64_one by lia.
Qed.

Lemma chunk_load_valid bs k w :
  0 ≤ k → chunks bs !! Z.to_nat k = Some w → chunk_load bs k = Done w.
Proof.
  intros Hk Hw. unfold chunk_load.
  destruct (Z.ltb_spec k 0); [lia|]. now rewrite Hw.
Qed.

Lemma bitset_set_valid bs i :
  wf bs → 0 ≤ i < capacity bs →
  ∃ w, chunks bs !! Z.to_nat (i / 64) = Some w ∧
       bitset_set bs i =
         Done {| capacity := capacity bs; nchunks := nchunks bs;
                 chunks := <[Z.to_nat (i / 64) := Z.lor w (2 ^ (i mod 64))]> (chunks bs) |}.
Proof.
  intros Hwf Hi. destruct (chunk_lookup bs i Hwf Hi) as (w & Hw & _).
  exists w. split; [assumption|].
  pose proof (chunk_in_storage bs i Hwf Hi) as Hc.
  unfold bitset_set. rewrite index_check_valid by lia. cbn.
  rewrite bit_mask_valid by lia. cbn.
  destruct (index_split i) as [-> _]; [lia|].
  rewrite (chunk_load_valid bs _ w) by (assumption || lia). cbn.
  unfold chunk_store. destruct (Z.ltb_spec (i / 64) 0); [lia|]. now rewrite Hw.
Qed.

Lemma bitset_clear_valid bs i :
  wf bs → 0 ≤ i < capacity bs →
  ∃ w, chunks bs !! Z.to_nat (i / 64) = Some w ∧
       bitset_clear bs i =
         Done {| capacity := capacity bs; nchunks := nchunks bs;
                 chunks := <[Z.to_nat (i / 64) := Z.land w (not64 (2 ^ (i mod 64)))]>
                             (chunks bs) |}.
Proof.
  intros Hwf Hi. destruct (chunk_lookup bs i Hwf Hi) as (w & Hw & _).
  exists w. split; [assumption|].
  pose proof (chunk_in_storage bs i Hwf Hi) as Hc.
  unfold bitset_clear. rewrite index_check_valid by lia. cbn.
  rewrite bit_mask_valid by lia. cbn.
  destruct (index_split i) as [-> _]; [lia|].
  rewrite (chunk_load_valid bs _ w) by (assumption || lia). cbn.
  unfold chunk_store. destruct (Z.ltb_spec (i / 64) 0); [lia|]. now rewrite Hw.
Qed.

Lemma bitset_get_valid bs i :
  wf bs → 0 ≤ i < capacity bs → bitset_get bs i = Done (stored_bit bs i).
Proof.
  intros Hwf Hi. destruct (chunk_lookup bs i Hwf Hi) as (w & Hw & _).
  pose proof (chunk_in_storage bs i Hwf Hi) as Hc.
  unfold bitset_get. rewrite index_check_valid by lia. cbn.
  rewrite bit_mask_valid by lia. cbn.
  destruct (index_split i) as [-> _]; [lia|].
  rewrite (chunk_load_valid bs _ w) by (assumption || lia). cbn.
  unfold stored_bit. rewrite Hw. cbn.
  pose proof (Z.mod_pos_bound i 64).
  now rewrite test_mask_r by lia.
Qed.

(** The check [index_check] makes: an index at or above [capacity] ends the
    three operations in [IndexOutOfRange], before the shift and before any
    access to the storage. *)
Lemma index_at_or_above_capacity bs i :
  capacity bs ≤ i →
  bitset_set bs i = Exit IndexOutOfRange ∧
  bitset_clear bs i = Exit IndexOutOfRange ∧
  bitset_get bs i = Exit IndexOutOfRange.
Proof.
  intros Hi. unfold bitset_set, bitset_clear, bitset_get, index_check.
  destruct (Z.geb_spec i (capacity bs)); [|lia]. repeat split.
Qed.

(** The check it does not make: no index below [capacity], negative ones
    included, ends an operation in [IndexOutOfRange]. *)
Lemma index_below_capacity_not_rejected bs i :
  i < capacity bs →
  bitset_set bs i ≠ Exit IndexOutOfRange ∧
  bitset_clear bs i ≠ Exit IndexOutOfRange ∧
  bitset_get bs i ≠ Exit IndexOutOfRange.
Proof.
  intros Hi. unfold bitset_set, bitset_clear, bitset_get.
  rewrite index_check_valid by assumption. cbn.
  unfold bit_mask, chunk_load, chunk_store.
  destruct ((Z.rem i 64 <? 0) || (64 <=? Z.rem i 64)); cbn; [repeat split; discriminate|].
  destruct (Z.quot i 64 <? 0); cbn; [repeat split; discriminate|].
  destruct (chunks bs !! Z.to_nat (Z.quot i 64)); cbn; repeat split; discriminate.
Qed.

Lemma same_position i j :
  0 ≤ i → 0 ≤ j → i / 64 = j / 64 → i mod 64 = j mod 64 → i = j.
Proof.
  intros Hi Hj Hq Hr.
  rewrite (Z.div_mod i 64), (Z.div_mod j 64) by lia. now rewrite Hq, Hr.
Qed.

Lemma stored_bit_insert c n l i w' j :
  0 ≤ i → 0 ≤ j → (Z.to_nat (i / 64) < length l)%nat →
  stored_bit {| capacity := c; nchunks := n; chunks := <[Z.to_nat (i / 64) := w']> l |} j =
  if j / 64 =? i / 64 then Z.testbit w' (j mod 64)
  else stored_bit {| capacity := c; nchunks := n; chunks := l |} j.
Proof.
  intros Hi Hj Hlen. unfold stored_bit. cbn.
  destruct (Z.eqb_spec (j / 64) (i / 64)) as [->|Hne].
  - now rewrite list_lookup_insert_eq by assumption.
  - rewrite list_lookup_insert_ne; [reflexivity|].
    pose proof (Z.div_pos i 64). pose proof (Z.div_pos j 64). lia.
Qed.

Lemma stored_bit_chunks bs j :
  stored_bit {| capacity := capacity bs; nchunks := nchunks bs; chunks := chunks bs |} j =
  stored_bit bs j.
Proof. reflexivity. Qed.

(** After [bitset_set], the bit at [i] is stored and every other bit, in or
    out of [[0, capacity)], is as before. *)
Lemma stored_bit_set bs i bs' j :
  wf bs → 0 ≤ i < capacity bs → bitset_set bs i = Done bs' → 0 ≤ j →
  stored_bit bs' j = (j =? i) || stored_bit bs j.
Proof.
  intros Hwf Hi Hset Hj.
  destruct (bitset_set_valid bs i Hwf Hi) as (w & Hw & E).
  rewrite E in Hset. injection Hset as <-.
  pose proof (Z.mod_pos_bound i 64). pose proof (Z.mod_pos_bound j 64).
  rewrite stored_bit_insert, stored_bit_chunks
    by (lia || eauto using lookup_lt_Some).
  destruct (Z.eqb_spec (j / 64) (i / 64)) as [Hq|Hq].
  - rewrite Z.lor_spec, Z.pow2_bits_eqb by lia.
    unfold stored_bit. rewrite Hq, Hw. cbn.
    destruct (Z.eqb_spec j i) as [->|Hne].
    + rewrite Z.eqb_refl. apply orb_true_r.
    + destruct (Z.eqb_spec (i mod 64) (j mod 64)) as [Hr|_].
      * exfalso. apply Hne. apply same_position; lia.
      * apply orb_false_r.
  - destruct (Z.eqb_spec j i) as [->|_]; [congruence | reflexivity].
Qed.

(** After [bitset_clear], the bit at [i] is not stored and every other bit
    is as before. *)
Lemma stored_bit_clear bs i bs' j :
  wf bs → 0 ≤ i < capacity bs → bitset_clear bs i = Done bs' → 0 ≤ j →
  stored_bit bs' j = negb (j =? i) && stored_bit bs j.
Proof.
  intros Hwf Hi Hclear Hj.
  destruct (bitset_clear_valid bs i Hwf Hi) as (w & Hw & E).
  rewrite E in Hclear. injection Hclear as <-.
  pose proof (Z.mod_pos_bound i 64). pose proof (Z.mod_pos_bound j 64).
  rewrite stored_bit_insert, stored_bit_chunks
    by (lia || eauto using lookup_lt_Some).
  destruct (Z.eqb_spec (j / 64) (i / 64)) as [Hq|Hq].
  - rewrite Z.land_spec, not64_bits, Z.pow2_bits_eqb by lia.
    unfold stored_bit. rewrite Hq, Hw. cbn.
    destruct (Z.ltb_spec (j mod 64) 64); [|lia].
    destruct (Z.eqb_spec j i) as [->|Hne].
    + rewrite Z.eqb_refl. cbn. apply andb_false_r.
    + destruct (Z.eqb_spec (i mod 64) (j mod 64)) as [Hr|_].
      * exfalso. apply Hne. apply same_position; lia.
      * cbn. apply andb_true_r.
  - destruct (Z.eqb_spec j i) as [->|_]; [congruence | reflexivity].
Qed.

(** ** Well-formedness is kept *)

Lemma stored_bit_replicate c n k j :
  stored_bit {| capacity := c; nchunks := n; chunks := replicate k 0 |} j = false.
Proof.
  unfold stored_bit. cbn.
  destruct (replicate k 0 !! Z.to_nat (j / 64)) as [w|] eqn:E; cbn.
  - apply lookup_replicate in E as [-> _]. apply Z.bits_0.
  - apply Z.bits_0.
Qed.

Lemma nchunks_init c :
  0 ≤ c →
  (if Z.rem c 64 =? 0 then Z.quot c 64 else Z.quot c 64 + 1) = (c + 63) / 64.
Proof.
  intros Hc. destruct (index_split c Hc) as [-> ->].
  pose proof (Z.mod_pos_bound c 64). pose proof (Z.div_mod c 64).
  destruct (Z.eqb_spec (c mod 64) 0) as [E|E].
  - apply Z.div_unique with (r := 63); lia.
  - apply Z.div_unique with (r := c mod 64 - 1); lia.
Qed.

Lemma wf_reset bs :
  0 ≤ capacity bs ≤ INT_MAX → nchunks bs = (capacity bs + 63) / 64 →
  wf (bitset_reset bs).
Proof.
  intros Hc Hn. split; cbn.
  - assumption.
  - assumption.
  - rewrite length_replicate. apply Z2Nat.id. rewrite Hn. apply Z.div_pos; lia.
  - apply Forall_replicate. lia.
  - intros i _. apply stored_bit_replicate.
Qed.

Lemma wf_init block c bs :
  0 ≤ c ≤ INT_MAX → bitset_init (Some block) c = Done bs → wf bs.
Proof.
  intros Hc E. unfold bitset_init in E. injection E as <-.
  apply wf_reset; cbn; [assumption|]. apply nchunks_init. lia.
Qed.

Lemma wf_set bs i bs' :
  wf bs → 0 ≤ i < capacity bs → bitset_set bs i = Done bs' → wf bs'.
Proof.
  intros Hwf Hi Hset.
  pose proof (λ j, stored_bit_set bs i bs' j Hwf Hi Hset) as Hbits.
  destruct (bitset_set_valid bs i Hwf Hi) as (w & Hw & E).
  destruct (chunk_lookup bs i Hwf Hi) as (w0 & Hw0 & Hrange).
  rewrite E in Hset. injection Hset as <-.
  pose proof (Z.mod_pos_bound i 64).
  split; cbn in *.
  - apply (wf_capacity bs Hwf).
  - apply (wf_nchunks bs Hwf).
  - rewrite length_insert. apply (wf_length bs Hwf).
  - apply Forall_insert; [apply (wf_words bs Hwf)|].
    apply lor_word; [congruence | apply pow2_word; lia].
  - intros j Hj. rewrite Hbits by lia.
    rewrite (wf_padding bs Hwf) by lia.
    destruct (Z.eqb_spec j i); [lia | reflexivity].
Qed.

Lemma wf_clear bs i bs' :
  wf bs → 0 ≤ i < capacity bs → bitset_clear bs i = Done bs' → wf bs'.
Proof.
  intros Hwf Hi Hclear.
  pose proof (λ j, stored_bit_clear bs i bs' j Hwf Hi Hclear) as Hbits.
  destruct (bitset_clear_valid bs i Hwf Hi) as (w & Hw & E).
  destruct (chunk_lookup bs i Hwf Hi) as (w0 & Hw0 & Hrange).
  rewrite E in Hclear. injection Hclear as <-.
  split; cbn in *.
  - apply (wf_capacity bs Hwf).
  - apply (wf_nchunks bs Hwf).
  - rewrite length_insert. apply (wf_length bs Hwf).
  - apply Forall_insert; [apply (wf_words bs Hwf)|].
    apply land_word. congruence.
  - intros j Hj. rewrite Hbits by lia.
    rewrite (wf_padding bs Hwf) by lia. apply andb_false_r.
Qed.

Lemma reachable_wf bs : reachable bs → wf bs.
Proof.
  induction 1 as [block c bs Hc E|block c bs Hc E|bs i bs' _ IH Hi E
                 |bs i bs' _ IH Hi E|bs _ IH].
  - eapply wf_init; eassumption.
  - eapply wf_init; eassumption.
  - eapply wf_set; eassumption.
  - eapply wf_clear; eassumption.
  - apply wf_reset; [apply (wf_capacity bs IH) | apply (wf_nchunks bs IH)].
Qed.

(** ** The stateless scan *)

Lemma scan_bind_load {B} mem c (f : Z → scan B) :
  (load mem c ≫= f) =
  match f (mem c) with
  | None => None
  | Some (t, b) => Some (c :: t, b)
  end.
Proof. reflexivity. Qed.

Lemma scan_bind_some {A B} t (a : A) (f : A → scan B) :
  (Some (t, a) ≫= f) =
  match f a with
  | None => None
  | Some (t', b) => Some (t ++ t', b)
  end.
Proof. reflexivity. Qed.

Lemma scan_bind_ret {A B} (a : A) (f : A → scan B) : (mret a ≫= f) = f a.
Proof. cbn. now destruct (f a) as [[t b]|]. Qed.

Lemma storage_word bs beyond k :
  wf bs → in_storage bs k →
  chunks bs !! Z.to_nat k = Some (storage beyond bs k).
Proof.
  intros Hwf Hk. unfold in_storage in Hk.
  destruct (lookup_lt_is_Some_2 (chunks bs) (Z.to_nat k)) as [w Hw].
  { pose proof (wf_length bs Hwf). lia. }
  unfold storage. destruct (Z.ltb_spec k 0); [lia|]. now rewrite Hw.
Qed.

Lemma position_in_storage bs i :
  0 ≤ i < 64 * nchunks bs → in_storage bs (i / 64).
Proof.
  intros Hi. unfold in_storage.
  split; [apply Z.div_pos; lia | apply Z.div_lt_upper_bound; lia].
Qed.

Lemma valid_in_storage bs i :
  wf bs → 0 ≤ i < capacity bs → in_storage bs (i / 64).
Proof. intros Hwf Hi. now apply chunk_in_storage. Qed.

Lemma storage_bit bs beyond i :
  wf bs → in_storage bs (i / 64) →
  Z.testbit (storage beyond bs (i / 64)) (i mod 64) = stored_bit bs i.
Proof.
  intros Hwf Hi. unfold stored_bit.
  now rewrite (storage_word bs beyond (i / 64) Hwf Hi).
Qed.

Lemma chunk_of_position c i : 64 * c ≤ i < 64 * c + 64 → i / 64 = c.
Proof. intros Hi. symmetry. apply Z.div_unique with (r := i - 64 * c); lia. Qed.

Lemma boundary_in_storage bs c :
  wf bs → 0 ≤ c → 64 * c < capacity bs → in_storage bs c.
Proof.
  intros Hwf Hc Hlt.
  rewrite <- (chunk_of_position c (64 * c)) by lia.
  apply valid_in_storage; [assumption | lia].
Qed.

Lemma storage_zero bs beyond c :
  wf bs → in_storage bs c → storage beyond bs c = 0 →
  empty_between bs (64 * c) (64 * c + 64).
Proof.
  intros Hwf Hc Hz i Hi.
  rewrite <- (chunk_of_position c i) in Hc, Hz by lia.
  rewrite <- (storage_bit bs beyond i Hwf Hc), Hz. apply Z.bits_0.
Qed.

Lemma empty_between_app bs a b c :
  empty_between bs a b → empty_between bs b c → empty_between bs a c.
Proof.
  intros Hab Hbc i Hi. destruct (Z.lt_ge_cases i b); [apply Hab | apply Hbc]; lia.
Qed.

Lemma empty_between_nil bs a b : b ≤ a → empty_between bs a b.
Proof. intros Hle i Hi. lia. Qed.

Lemma empty_between_weaken bs a b b' :
  empty_between bs a b → b' ≤ b → empty_between bs a b'.
Proof. intros H Hle i Hi. apply H. lia. Qed.

Lemma empty_between_one bs i :
  stored_bit bs i = false → empty_between bs i (i + 1).
Proof. intros H j Hj. now replace j with i by lia. Qed.

Lemma next_spec_skip bs k k' r :
  k ≤ k' → empty_between bs k k' → next_spec bs k' r → next_spec bs k r.
Proof.
  intros Hle Hempty [[-> Hrest]|(Hr & Hbit & Hrest)].
  - left. split; [reflexivity|]. eapply empty_between_app; eassumption.
  - right. split; [lia|]. split; [assumption|].
    eapply empty_between_app; eassumption.
Qed.

(** The skip over empty words, started on a word boundary at or below
    [capacity]: it passes over positions without a stored bit only, and
    leaves the index on a word boundary, at or above [capacity] exactly
    when the function returns from inside the loop.  Started below
    [capacity] it reads inside the storage.  Started at [capacity] itself
    the word it reads is outside, and either value of that word leaves the
    index at or above [capacity]. *)
Lemma spin_forward_spec bs beyond fuel :
  wf bs → capacity bs ≤ INT_MAX - 64 →
  ∀ c, 0 ≤ c → 64 * c ≤ capacity bs →
    (Z.to_nat (capacity bs - 64 * c) < fuel)%nat →
    ∃ tr (ret : bool) c',
      spin_forward fuel (storage beyond bs) (capacity bs) c (64 * c)
        = Some (tr, (ret, c', 64 * c')) ∧
      c ≤ c' ∧
      empty_between bs (64 * c) (Z.min (64 * c') (capacity bs)) ∧
      (if ret then capacity bs ≤ 64 * c' else 64 * c' ≤ capacity bs) ∧
      (64 * c < capacity bs → Forall (in_storage bs) tr).
Proof.
  intros Hwf Hcap.
  induction fuel as [|fuel IH]; intros c Hc Hle Hfuel; [lia|].
  cbn [spin_forward]. rewrite scan_bind_load.
  assert (Hin : 64 * c < capacity bs → in_storage bs c)
    by (intros; now apply boundary_in_storage).
  destruct (Z.eqb_spec (storage beyond bs c) 0) as [Hz|Hnz].
  - rewrite int_add_small by lia.
    replace (64 * c + 64) with (64 * (c + 1)) by lia.
    assert (Hword : empty_between bs (64 * c) (Z.min (64 * (c + 1)) (capacity bs))).
    { destruct (Z.eq_dec (64 * c) (capacity bs)).
      - apply empty_between_nil. lia.
      - eapply empty_between_weaken;
          [apply (storage_zero bs beyond c); [assumption|apply Hin; lia|assumption]|].
        lia. }
    destruct (Z.geb_spec (64 * (c + 1)) (capacity bs)) as [Hge|Hlt].
    + exists [c], true, (c + 1). cbn. split; [reflexivity|]. split; [lia|].
      split; [assumption|]. split; [assumption|]. intros Hlt. auto.
    + destruct (IH (c + 1)) as (tr & ret & c' & E & Hc' & Hempty & Hret & Htr);
        [lia..|].
      rewrite E. exists (c :: tr), ret, c'. split; [reflexivity|]. split; [lia|].
      rewrite Z.min_l in Hword by lia.
      split; [eapply empty_between_app; eassumption|].
      split; [assumption|]. intros _. constructor; [apply Hin|apply Htr]; lia.
  - exists [c], false, c. cbn. split; [reflexivity|]. split; [lia|].
    split; [apply empty_between_nil; lia|]. split; [assumption|].
    intros Hlt. auto.
Qed.

(** The loop of [bitset_next_set_bit], entered with [chunk] and [mask]
    positioned at [index], returns what the scan from [index] has to.  When
    [capacity] is not a multiple of 64 it reads inside the storage only. *)
Lemma next_set_bit_loop_spec bs beyond fuel :
  wf bs → capacity bs ≤ INT_MAX - 64 →
  ∀ index chunk mask,
    0 ≤ index → chunk = index / 64 → mask = 2 ^ (index mod 64) →
    (Z.to_nat (capacity bs - index) < fuel)%nat →
    ∃ tr r,
      next_set_bit_loop fuel (storage beyond bs) (capacity bs) chunk mask index
        = Some (tr, r) ∧
      next_spec bs index r ∧
      (capacity bs mod 64 ≠ 0 → Forall (in_storage bs) tr).
Proof.
  intros Hwf Hcap.
  induction fuel as [|fuel IH]; intros index chunk mask Hi -> -> Hfuel; [lia|].
  pose proof (Z.mod_pos_bound index 64 ltac:(lia)) as Hb.
  pose proof (Z.div_mod index 64 ltac:(lia)) as Hdm.
  cbn [next_set_bit_loop].
  destruct (Z.ltb_spec index (capacity bs)) as [Hlt|Hge].
  2:{ exists [], (-1). split; [reflexivity|]. split; [|constructor].
      left. split; [reflexivity|]. apply empty_between_nil. lia. }
  assert (Hin : in_storage bs (index / 64)) by (apply valid_in_storage; [assumption|lia]).
  rewrite scan_bind_load, test_mask, storage_bit by (assumption || lia).
  destruct (stored_bit bs index) eqn:Hbit; cbn [negb].
  { exists [index / 64], index. split; [reflexivity|]. split; [|auto].
    right. split; [lia|]. split; [assumption|]. apply empty_between_nil. lia. }
  rewrite shl64_bit, int_add_small by (unfold INT_MAX in *; lia).
  apply empty_between_one in Hbit.
  destruct (Z.eqb_spec (index mod 64) 63) as [Hlast|Hmore].
  - cbn [Z.eqb].
    replace (index + 1) with (64 * (index / 64 + 1)) by lia.
    destruct (spin_forward_spec bs beyond fuel Hwf Hcap (index / 64 + 1))
      as (tr & ret & c' & E & Hc' & Hempty & Hret & Htr); [lia..|].
    rewrite E. cbn.
    replace (64 * (index / 64 + 1)) with (index + 1) in Hempty, Htr by lia.
    assert (Htr' : capacity bs mod 64 ≠ 0 → Forall (in_storage bs) tr).
    { intros Hmod. apply Htr.
      destruct (Z.eq_dec (index + 1) (capacity bs)) as [Heq|]; [|lia].
      exfalso. apply Hmod. rewrite <- Heq.
      replace (index + 1) with ((index / 64 + 1) * 64) by lia. apply Z.mod_mul. lia. }
    destruct ret.
    + exists ((index / 64 :: tr) ++ []), (-1). split; [reflexivity|]. split.
      * left. split; [reflexivity|]. rewrite Z.min_r in Hempty by lia.
        eapply empty_between_app; eassumption.
      * intros Hmod. rewrite app_nil_r. auto.
    + rewrite Z.min_l in Hempty by lia.
      destruct (IH (64 * c') c' 1) as (tr' & r & E' & Hr & Htr'').
      * lia.
      * symmetry. apply chunk_of_position. lia.
      * replace (64 * c') with (c' * 64) by lia. now rewrite Z.mod_mul.
      * lia.
      * rewrite E'. exists (index / 64 :: tr ++ tr'), r. split; [reflexivity|]. split.
        -- apply (next_spec_skip bs index (64 * c') r); [lia| |assumption].
           eapply empty_between_app; eassumption.
        -- intros Hmod. constructor; [assumption|]. apply Forall_app. auto.
  - destruct (Z.eqb_spec (2 ^ (index mod 64 + 1)) 0) as [E0|_].
    { now apply pow2_nonzero in E0; [|lia]. }
    destruct (IH (index + 1) (index / 64) (2 ^ (index mod 64 + 1)))
      as (tr' & r & E' & Hr & Htr').
    + lia.
    + symmetry. apply chunk_of_position. lia.
    + f_equal. apply Z.mod_unique with (q := index / 64); lia.
    + lia.
    + rewrite E'. exists (index / 64 :: tr'), r. split; [reflexivity|]. split.
      * apply (next_spec_skip bs index (index + 1) r); [lia|assumption..].
      * intros Hmod. auto.
Qed.

Lemma bitset_next_set_bit_spec bs beyond k :
  wf bs → capacity bs ≤ INT_MAX - 64 → 0 ≤ k →
  ∃ tr r,
    bitset_next_set_bit beyond bs k = Some (tr, r) ∧ next_spec bs k r ∧
    (capacity bs mod 64 ≠ 0 → Forall (in_storage bs) tr).
Proof.
  intros Hwf Hcap Hk. unfold bitset_next_set_bit, scan_fuel.
  pose proof (Z.mod_pos_bound k 64 ltac:(lia)).
  apply next_set_bit_loop_spec; try assumption.
  - rewrite Z.shiftr_div_pow2 by lia. reflexivity.
  - change 63 with (Z.ones 6). rewrite Z.land_ones by lia.
    change (2 ^ 6) with 64. apply shl64_one. lia.
  - lia.
Qed.

(** ** The ascending list of the stored positions *)

Section filter_seqZ.
Context (P : Z → Prop) `{!∀ i, Decision (P i)}.

Lemma filter_seqZ_empty a n :
  (∀ i, a ≤ i < a + n → ¬ P i) → filter P (seqZ a n) = [].
Proof.
  intros Hnone. apply elem_of_nil_inv. intros x Hx.
  apply list_elem_of_filter in Hx as [HP Hx].
  apply elem_of_seqZ in Hx. exact (Hnone x Hx HP).
Qed.

Lemma head_filter_seqZ a n r :
  a ≤ r < a + n → P r → (∀ i, a ≤ i < r → ¬ P i) →
  head (filter P (seqZ a n)) = Some r.
Proof.
  intros Hr HP Hnone.
  replace n with ((r - a) + (n - (r - a))) by lia.
  rewrite seqZ_app, filter_app by lia.
  rewrite filter_seqZ_empty by (intros i Hi; apply Hnone; lia).
  replace (a + (r - a)) with r by lia.
  rewrite seqZ_cons by lia.
  now rewrite filter_cons_True by assumption.
Qed.
End filter_seqZ.

Lemma first_from_set_indices bs k :
  first_from k (set_indices bs) =
  default (-1) (head (filter (λ i, k ≤ i ∧ stored_bit bs i) (seqZ 0 (capacity bs)))).
Proof. unfold first_from, set_indices. now rewrite list_filter_filter. Qed.

(** What the scan has to return from [k] is the first stored position at or
    after [k] in the ascending list, or -1. *)
Lemma next_spec_first_from bs k r :
  0 ≤ k → next_spec bs k r → r = first_from k (set_indices bs).
Proof.
  intros Hk Hspec. rewrite first_from_set_indices.
  destruct Hspec as [[-> Hempty]|(Hr & Hbit & Hempty)].
  - rewrite filter_seqZ_empty; [reflexivity|].
    intros i Hi [Hki Hset]. rewrite Hempty in Hset by lia. exact Hset.
  - rewrite (head_filter_seqZ _ 0 (capacity bs) r); [reflexivity|lia| |].
    + split; [lia|]. now rewrite Hbit.
    + intros i Hi [Hki Hset]. rewrite Hempty in Hset by lia. exact Hset.
Qed.

(** ** The enumeration by the stateless scan *)

Lemma set_indices_from_0 bs : set_indices_from bs 0 = set_indices bs.
Proof. unfold set_indices_from, set_indices. now rewrite Z.sub_0_r. Qed.

Lemma set_indices_from_next bs k r :
  0 ≤ k → next_spec bs k r →
  set_indices_from bs k = if r >=? 0 then r :: set_indices_from bs (r + 1) else [].
Proof.
  unfold set_indices_from. intros Hk [[-> Hempty]|(Hr & Hbit & Hempty)].
  - cbn. apply filter_seqZ_empty. intros i Hi Hset.
    rewrite Hempty in Hset by lia. exact Hset.
  - destruct (Z.geb_spec r 0) as [Hge|Hneg].
    + replace (capacity bs - k) with ((r - k) + (capacity bs - r)) by lia.
      rewrite seqZ_app, filter_app by lia.
      rewrite filter_seqZ_empty.
      2:{ intros i Hi Hset. rewrite Hempty in Hset by lia. exact Hset. }
      replace (k + (r - k)) with r by lia.
      rewrite seqZ_cons by lia.
      rewrite filter_cons_True by now rewrite Hbit.
      cbn. do 3 f_equal; lia.
    + lia.
Qed.

Lemma enumerate2_loop_spec bs beyond fuel :
  wf bs → capacity bs ≤ INT_MAX - 64 →
  ∀ k elem,
    0 ≤ k → next_spec bs k elem → (Z.to_nat (capacity bs - k) < fuel)%nat →
    ∃ tr,
      enumerate2_loop fuel beyond bs elem = Some (tr, set_indices_from bs k) ∧
      (capacity bs mod 64 ≠ 0 → Forall (in_storage bs) tr).
Proof.
  intros Hwf Hcap.
  induction fuel as [|fuel IH]; intros k elem Hk Hspec Hfuel; [lia|].
  rewrite (set_indices_from_next bs k elem Hk Hspec). cbn [enumerate2_loop].
  destruct (Z.geb_spec elem 0) as [Hge|Hneg].
  2:{ exists []. split; [reflexivity|]. constructor. }
  destruct Hspec as [[-> _]|(Hr & Hbit & Hempty)]; [lia|].
  rewrite int_add_small by (unfold INT_MAX in *; lia).
  destruct (bitset_next_set_bit_spec bs beyond (elem + 1) Hwf Hcap)
    as (tr & r & E & Hnext & Htr); [lia|].
  destruct (IH (elem + 1) r) as (tr' & E' & Htr'); [lia|assumption|lia|].
  rewrite E, scan_bind_some, E'. cbn. eexists. split; [reflexivity|].
  intros Hmod. rewrite !Forall_app. auto using Forall_nil.
Qed.

(** The loop of [bitset_enumerate2] visits the stored positions of
    [[0, capacity)], each once, in ascending order; when [capacity] is not
    a multiple of 64 it reads inside the storage only. *)
Lemma enumerate2_elems_spec bs beyond :
  wf bs → capacity bs ≤ INT_MAX - 64 →
  ∃ tr, enumerate2_elems beyond bs = Some (tr, set_indices bs) ∧
        (capacity bs mod 64 ≠ 0 → Forall (in_storage bs) tr).
Proof.
  intros Hwf Hcap. unfold enumerate2_elems, enumerate_fuel.
  destruct (bitset_next_set_bit_spec bs beyond 0 Hwf Hcap)
    as (tr & r & E & Hnext & Htr); [lia|].
  destruct (enumerate2_loop_spec bs beyond (S (S (S (Z.to_nat (capacity bs)))))
              Hwf Hcap 0 r) as (tr' & E' & Htr'); [lia|assumption|lia|].
  rewrite E, scan_bind_some, E', set_indices_from_0. eexists.
  split; [reflexivity|]. intros Hmod. rewrite !Forall_app. auto.
Qed.

(** ** The cursor *)

Lemma positioned_begin bs : positioned bs (bitset_iter_begin bs) (-1).
Proof. repeat split. Qed.

Lemma capacity_below_storage bs :
  wf bs → capacity bs mod 64 ≠ 0 → capacity bs < 64 * nchunks bs.
Proof.
  intros Hwf Hmod. rewrite (wf_nchunks bs Hwf).
  pose proof (wf_capacity bs Hwf).
  pose proof (Z.mod_pos_bound (capacity bs) 64 ltac:(lia)).
  pose proof (Z.div_mod (capacity bs) 64 ltac:(lia)).
  replace ((capacity bs + 63) / 64) with (capacity bs / 64 + 1); [lia|].
  apply Z.div_unique with (r := capacity bs mod 64 - 1); lia.
Qed.

Lemma advance_mask i mask :
  -1 ≤ i → mask = (if i =? -1 then 0 else 2 ^ (i mod 64)) →
  shl64 mask 1 = if (i + 1) mod 64 =? 0 then 0 else 2 ^ ((i + 1) mod 64).
Proof.
  intros Hi ->. destruct (Z.eqb_spec i (-1)) as [->|Hne]; [reflexivity|].
  pose proof (Z.mod_pos_bound i 64 ltac:(lia)).
  pose proof (Z.div_mod i 64 ltac:(lia)).
  rewrite shl64_bit by lia.
  destruct (Z.eqb_spec (i mod 64) 63) as [E|E].
  - replace ((i + 1) mod 64) with 0; [reflexivity|].
    apply Z.mod_unique with (q := i / 64 + 1); lia.
  - replace ((i + 1) mod 64) with (i mod 64 + 1).
    + destruct (Z.eqb_spec (i mod 64 + 1) 0); [lia | reflexivity].
    + apply Z.mod_unique with (q := i / 64); lia.
Qed.

(** The loop of [bitset_iter_next] from a cursor standing at [i], when
    [capacity] is not a multiple of 64: it returns what the scan from
    [i + 1] has to, reads inside the storage only, and leaves the cursor
    standing at the position it returned, or exhausted. *)
Lemma iter_next_loop_spec bs beyond fuel :
  wf bs → capacity bs ≤ INT_MAX - 64 → capacity bs mod 64 ≠ 0 →
  ∀ i bsi,
    -1 ≤ i → positioned bs bsi i → (Z.to_nat (capacity bs - i) < fuel)%nat →
    ∃ tr bsi' r,
      iter_next_loop fuel (storage beyond bs) bsi = Some (tr, (bsi', r)) ∧
      next_spec bs (i + 1) r ∧
      Forall (in_storage bs) tr ∧
      iter_capacity bsi' = capacity bs ∧
      if r >=? 0 then positioned bs bsi' r else capacity bs ≤ iter_index bsi'.
Proof.
  intros Hwf Hcap Hmod.
  pose proof (capacity_below_storage bs Hwf Hmod) as Hroom.
  induction fuel as [|fuel IH]; intros i bsi Hi (Hc & Hidx & Hchunk & Hmask) Hfuel;
    [lia|].
  cbn [iter_next_loop]. rewrite Hc, Hidx.
  destruct (Z.ltb_spec i (capacity bs)) as [Hlt|Hge].
  2:{ exists [], bsi, (-1). split; [reflexivity|]. split; [|split; [constructor|]].
      - left. split; [reflexivity|]. apply empty_between_nil. lia.
      - split; [assumption|]. cbn. lia. }
  rewrite int_add_small by (unfold INT_MAX in *; lia).
  rewrite (advance_mask i (iter_mask bsi) Hi Hmask), Hchunk.
  pose proof (Z.mod_pos_bound (i + 1) 64 ltac:(lia)) as Hb.
  pose proof (Z.div_mod (i + 1) 64 ltac:(lia)) as Hdm.
  assert (Htest : ∀ p bsi1,
    i + 1 ≤ p ≤ capacity bs → positioned bs bsi1 p → empty_between bs (i + 1) p →
    ∃ tr bsi' r,
      (w ← load (storage beyond bs) (iter_chunk bsi1);
       if negb (Z.land (iter_mask bsi1) w =? 0) then mret (bsi1, iter_index bsi1)
       else iter_next_loop fuel (storage beyond bs) bsi1) = Some (tr, (bsi', r)) ∧
      next_spec bs (i + 1) r ∧
      Forall (in_storage bs) tr ∧
      iter_capacity bsi' = capacity bs ∧
      if r >=? 0 then positioned bs bsi' r else capacity bs ≤ iter_index bsi').
  { intros p bsi1 Hp Hpos Hempty.
    pose proof Hpos as (Hc1 & Hidx1 & Hchunk1 & Hmask1).
    assert (Hin : in_storage bs (p / 64)) by (apply position_in_storage; lia).
    pose proof (Z.mod_pos_bound p 64 ltac:(lia)).
    destruct (Z.eqb_spec p (-1)) as [|_]; [lia|].
    rewrite scan_bind_load, Hchunk1, Hmask1, Hidx1, test_mask, storage_bit
      by (assumption || lia).
    destruct (stored_bit bs p) eqn:Hbit.
    - assert (p < capacity bs).
      { destruct (Z.lt_ge_cases p (capacity bs)); [assumption|].
        rewrite (wf_padding bs Hwf) in Hbit by lia. discriminate. }
      exists [p / 64], bsi1, p. cbn. split; [reflexivity|]. split; [|split; [auto|]].
      + right. split; [lia|]. split; assumption.
      + split; [assumption|]. destruct (Z.geb_spec p 0); [assumption|lia].
    - destruct (IH p bsi1) as (tr & bsi' & r & E & Hr & Htr & Hc' & Hfin);
        [lia|assumption|lia|].
      cbn [negb]. rewrite E. exists (p / 64 :: tr), bsi', r.
      split; [reflexivity|]. split; [|split; [auto|split; assumption]].
      apply (next_spec_skip bs (i + 1) (p + 1) r); [lia| |assumption].
      eapply empty_between_app; [eassumption|]. now apply empty_between_one. }
  destruct (Z.eqb_spec ((i + 1) mod 64) 0) as [Hbound|Hinner].
  - cbn [Z.eqb].
    assert (Hq : i / 64 + 1 = (i + 1) / 64).
    { pose proof (Z.mod_pos_bound i 64 ltac:(lia)).
      pose proof (Z.div_mod i 64 ltac:(lia)).
      apply Z.div_unique with (r := 0); lia. }
    rewrite Hq.
    destruct (spin_forward_spec bs beyond fuel Hwf Hcap ((i + 1) / 64))
      as (tr & ret & c' & E & Hc' & Hempty & Hret & Htr).
    { apply Z.div_pos; lia. } { lia. } { lia. }
    replace (64 * ((i + 1) / 64)) with (i + 1) in E, Hempty, Htr by lia.
    rewrite E, !scan_bind_some. cbn [mret scan_ret].
    assert (Htr' : Forall (in_storage bs) tr).
    { apply Htr. destruct (Z.eq_dec (i + 1) (capacity bs)) as [Heq|]; [|lia].
      exfalso. apply Hmod. now rewrite <- Heq. }
    destruct ret.
    + eexists _, _, (-1). cbn. split; [reflexivity|].
      split; [|split; [|split; [reflexivity|assumption]]].
      * left. split; [reflexivity|]. now rewrite Z.min_r in Hempty by lia.
      * rewrite !Forall_app. auto using Forall_nil.
    + assert (Hlt' : 64 * c' < capacity bs).
      { destruct (Z.eq_dec (64 * c') (capacity bs)) as [Heq|]; [|lia].
        exfalso. apply Hmod. rewrite <- Heq.
        replace (64 * c') with (c' * 64) by lia. apply Z.mod_mul. lia. }
      rewrite Z.min_l in Hempty by lia.
      destruct (Htest (64 * c')
                  {| iter_chunk := c'; iter_mask := 1; iter_index := 64 * c';
                     iter_capacity := capacity bs |})
        as (tr2 & bsi' & r & E2 & Hr & Htr2 & Hcap2 & Hfin).
      * lia.
      * split; [reflexivity|]. split; [reflexivity|]. cbn.
        split; [symmetry; apply chunk_of_position; lia|].
        destruct (Z.eqb_spec (64 * c') (-1)); [lia|].
        replace (64 * c') with (c' * 64) by lia. now rewrite Z.mod_mul.
      * assumption.
      * rewrite scan_bind_some. cbn beta iota. rewrite E2. eexists _, bsi', r.
        split; [reflexivity|]. split; [assumption|].
        split; [|split; assumption].
        rewrite !Forall_app. auto using Forall_nil.
  - destruct (Z.eqb_spec (2 ^ ((i + 1) mod 64)) 0) as [E0|_].
    { now apply pow2_nonzero in E0; [|lia]. }
    rewrite scan_bind_ret. cbn beta iota.
    assert (Hq : i / 64 = (i + 1) / 64).
    { destruct (Z.eq_dec i (-1)) as [->|]; [now cbn in Hinner|].
      pose proof (Z.mod_pos_bound i 64 ltac:(lia)).
      pose proof (Z.div_mod i 64 ltac:(lia)).
      apply Z.div_unique with (r := (i + 1) mod 64); lia. }
    destruct (Htest (i + 1)
                {| iter_chunk := i / 64; iter_mask := 2 ^ ((i + 1) mod 64);
                   iter_index := i + 1; iter_capacity := capacity bs |})
      as (tr2 & bsi' & r & E2 & Hr & Htr2 & Hcap2 & Hfin).
    + lia.
    + split; [reflexivity|]. split; [reflexivity|]. cbn.
      split; [assumption|]. destruct (Z.eqb_spec (i + 1) (-1)); [lia|reflexivity].
    + apply empty_between_nil. lia.
    + cbn beta iota. rewrite E2. eexists _, bsi', r.
      split; [reflexivity|]. split; [assumption|]. split; [|split; assumption].
      rewrite ?Forall_app. auto using Forall_nil.
Qed.

Lemma bitset_iter_next_spec bs beyond i bsi :
  wf bs → capacity bs ≤ INT_MAX - 64 → capacity bs mod 64 ≠ 0 →
  -1 ≤ i → positioned bs bsi i →
  ∃ tr bsi' r,
    bitset_iter_next (storage beyond bs) bsi = Some (tr, (bsi', r)) ∧
    next_spec bs (i + 1) r ∧
    Forall (in_storage bs) tr ∧
    iter_capacity bsi' = capacity bs ∧
    if r >=? 0 then positioned bs bsi' r else capacity bs ≤ iter_index bsi'.
Proof.
  intros Hwf Hcap Hmod Hi Hpos. unfold bitset_iter_next, scan_fuel.
  pose proof Hpos as (Hc & Hidx & _).
  apply (iter_next_loop_spec bs beyond _ Hwf Hcap Hmod i); [assumption..|].
  rewrite Hc, Hidx. lia.
Qed.


Lemma enumerate_loop_spec bs beyond fuel :
  wf bs → capacity bs ≤ INT_MAX - 64 → capacity bs mod 64 ≠ 0 →
  ∀ i bsi,
    -1 ≤ i → positioned bs bsi i → (Z.to_nat (capacity bs - i) < fuel)%nat →
    ∃ tr,
      enumerate_loop fuel (storage beyond bs) bsi
        = Some (tr, set_indices_from bs (i + 1)) ∧
      Forall (in_storage bs) tr.
Proof.
  intros Hwf Hcap Hmod.
  induction fuel as [|fuel IH]; intros i bsi Hi Hpos Hfuel; [lia|].
  cbn [enumerate_loop].
  destruct (bitset_iter_next_spec bs beyond i bsi Hwf Hcap Hmod Hi Hpos)
    as (tr & bsi' & r & E & Hr & Htr & Hc' & Hfin).
  rewrite E, scan_bind_some. cbn beta iota.
  rewrite (set_indices_from_next bs (i + 1) r) by (lia || assumption).
  destruct (Z.geb_spec r 0) as [Hge|Hneg].
  - destruct Hr as [[-> _]|(Hr & Hbit & Hempty)]; [lia|].
    destruct (IH r bsi') as (tr' & E' & Htr'); [lia|assumption|lia|].
    rewrite E'. cbn. eexists. split; [reflexivity|].
    rewrite !Forall_app. auto using Forall_nil.
  - cbn. eexists. split; [reflexivity|].
    rewrite !Forall_app. auto using Forall_nil.
Qed.

(** When [capacity] is not a multiple of 64, the loop of [bitset_enumerate]
    visits the stored positions, each once, in ascending order, and reads
    inside the storage only. *)
Lemma enumerate_elems_spec bs beyond :
  wf bs → capacity bs ≤ INT_MAX - 64 → capacity bs mod 64 ≠ 0 →
  ∃ tr, enumerate_elems beyond bs = Some (tr, set_indices bs) ∧
        Forall (in_storage bs) tr.
Proof.
  intros Hwf Hcap Hmod. unfold enumerate_elems, enumerate_fuel.
  rewrite <- set_indices_from_0.
  apply (enumerate_loop_spec bs beyond _ Hwf Hcap Hmod (-1));
    [lia | apply positioned_begin|].
  pose proof (wf_capacity bs Hwf). lia.
Qed.

(** Restart equivalence, for a capacity that leaves room for [index += 64]
    in an [int]: for every [k] with [0 <= k <= capacity],
    [bitset_next_set_bit bs k] is the first element at or after [k] of the
    full ascending enumeration, which is the list of the stored positions
    and what the loop of [bitset_enumerate2] visits, and -1 when there is
    none.  The value is the same whatever lies in memory beyond the
    storage. *)
Lemma next_set_bit_restart beyond bs k :
  wf bs → capacity bs ≤ INT_MAX - 64 → 0 ≤ k ≤ capacity bs →
  result (enumerate2_elems beyond bs) = Some (set_indices bs) ∧
  result (bitset_next_set_bit beyond bs k) = Some (first_from k (set_indices bs)).
Proof.
  intros Hwf Hcap Hk. split.
  - destruct (enumerate2_elems_spec bs beyond Hwf Hcap) as (tr & -> & _).
    reflexivity.
  - destruct (bitset_next_set_bit_spec bs beyond k Hwf Hcap) as (tr & r & -> & Hr & _);
      [lia|].
    cbn. f_equal. apply next_spec_first_from; [lia | assumption].
Qed.

(** When [capacity] is not a multiple of 64, the cursor and the stateless
    scan enumerate the same positions, the stored ones, and neither reads
    outside the storage. *)
Lemma enumerations_agree beyond bs :
  wf bs → capacity bs ≤ INT_MAX - 64 → capacity bs mod 64 ≠ 0 →
  ∃ tr tr2,
    enumerate_elems beyond bs = Some (tr, set_indices bs) ∧
    enumerate2_elems beyond bs = Some (tr2, set_indices bs) ∧
    Forall (in_storage bs) tr ∧ Forall (in_storage bs) tr2.
Proof.
  intros Hwf Hcap Hmod.
  destruct (enumerate_elems_spec bs beyond Hwf Hcap Hmod) as (tr & E & Htr).
  destruct (enumerate2_elems_spec bs beyond Hwf Hcap) as (tr2 & E2 & Htr2).
  exists tr, tr2. auto.
Qed.

(** ** A scan at the top of the range of [int] *)

(** From the last bit of the last word but one of [bs_int_max], over an
    empty last word: [index += 64] leaves the range of [int], the test
    against [capacity] does not stop the skip, and the scan goes on in the
    word after the storage. *)
Lemma next_set_bit_loop_overflow (fuel : nat) (mem : Z → Z) :
  mem 33554430 = 0 → mem 33554431 = 0 → mem 33554432 = 1 →
  next_set_bit_loop (S (S (S fuel))) mem 2147483647 33554430 (2 ^ 63) 2147483583
  = Some ([33554430; 33554431; 33554432; 33554432], -2147483648).
Proof.
  intros H0 H1 H2.
  cbn [next_set_bit_loop].
  change (2147483583 <? 2147483647) with true. cbv iota.
  rewrite scan_bind_load, H0.
  change (negb (Z.land (2 ^ 63) 0 =? 0)) with false. cbv iota.
  change (shl64 (2 ^ 63) 1 =? 0) with true. cbv iota.
  change (int_add 2147483583 1) with 2147483584.
  change (33554430 + 1) with 33554431.
  cbn [spin_forward].
  rewrite !scan_bind_load, H1.
  change (0 =? 0) with true. cbv iota.
  change (int_add 2147483584 64) with (-2147483648).
  change (-2147483648 >=? 2147483647) with false. cbv iota.
  change (33554431 + 1) with 33554432.
  rewrite H2.
  change (1 =? 0) with false. cbv iota.
  cbn [mret scan_ret mbind scan_bind load app].
  change (-2147483648 <? 2147483647) with true. cbv iota.
  rewrite H2.
  reflexivity.
Qed.

Lemma storage_bs_int_max (beyond : Z → Z) (k : Z) :
  storage beyond bs_int_max k = if (0 <=? k) && (k <? 33554432) then 0 else beyond k.
Proof.
  unfold storage, bs_int_max, bitset_reset. cbn [chunks nchunks].
  destruct (Z.ltb_spec k 0) as [Hneg|Hpos].
  - destruct (Z.leb_spec 0 k); [lia | reflexivity].
  - destruct (Z.leb_spec 0 k); [|lia]. cbn [andb].
    destruct (Z.ltb_spec k 33554432) as [Hin|Hout].
    + rewrite lookup_replicate_2; [reflexivity|]. apply Z2Nat.inj_lt; lia.
    + rewrite (proj1 (lookup_replicate_None _ _ _)); [reflexivity|].
      apply Z2Nat.inj_le; lia.
Qed.

Lemma wf_bs_int_max : wf bs_int_max.
Proof.
  apply wf_reset; cbn [capacity nchunks].
  - unfold INT_MAX. lia.
  - reflexivity.
Qed.

(** * The claims *)

(** C4: for every bitset and every start index at or above the capacity,
    [bitset_next_set_bit] returns -1 and reads no word at all, inside or
    outside the storage: the loop condition fails before the first load. *)
Theorem next_set_bit_from_capacity beyond bs index :
  capacity bs ≤ index → bitset_next_set_bit beyond bs index = Some ([], -1).
Proof.
  intros Hge. unfold bitset_next_set_bit, scan_fuel. cbn [next_set_bit_loop].
  destruct (Z.ltb_spec index (capacity bs)); [lia | reflexivity].
Qed.

(** C6: at the top of the range of [int] the scan does not return what
    the claim says.  In the empty bitset of capacity [INT_MAX], which
    [bitset_new] builds, the scan from [INT_MAX - 64] has no stored
    position to find; [index += 64] leaves the range of [int], the test
    against [capacity] does not end the skip, and the scan returns [-2^31]
    when bit 0 of the word after the storage is set. *)
Theorem next_set_bit_restart_int_overflow :
  bitset_new true (Some (fresh_block INT_MAX)) INT_MAX = Done bs_int_max ∧
  wf bs_int_max ∧
  0 ≤ 2147483583 ≤ capacity bs_int_max ∧
  first_from 2147483583 (set_indices bs_int_max) = -1 ∧
  result (bitset_next_set_bit (λ _, 1) bs_int_max 2147483583) = Some (-2147483648) ∧
  result (bitset_next_set_bit (λ _, 1) bs_int_max 2147483583)
    ≠ Some (first_from 2147483583 (set_indices bs_int_max)).
Proof.
  assert (Hfirst : first_from 2147483583 (set_indices bs_int_max) = -1).
  { symmetry. apply next_spec_first_from; [lia|].
    left. split; [reflexivity|]. intros i _. apply stored_bit_replicate. }
  assert (Hscan : result (bitset_next_set_bit (λ _, 1) bs_int_max 2147483583)
                  = Some (-2147483648)).
  { unfold bitset_next_set_bit.
    change (capacity bs_int_max) with 2147483647.
    change (scan_fuel 2147483647 2147483583) with (S (S (S 62))).
    change (Z.shiftr 2147483583 6) with 33554430.
    change (shl64 1 (Z.land 2147483583 63)) with (2 ^ 63).
    rewrite next_set_bit_loop_overflow; [reflexivity|..];
      rewrite storage_bs_int_max; reflexivity. }
  split; [reflexivity|]. split; [apply wf_bs_int_max|].
  split; [change (capacity bs_int_max) with 2147483647; lia|].
  split; [exact Hfirst|]. split; [exact Hscan|].
  rewrite Hscan, Hfirst. discriminate.
Qed.

(** C7: for every bitset and every valid index [i], after [bitset_set] the
    bit at [i] reads true and every other valid bit reads as before; after
    a subsequent [bitset_clear] the bit at [i] reads false and every other
    valid bit reads as it did after the set. *)
Theorem set_clear_frame bs i :
  wf bs → 0 ≤ i < capacity bs →
  ∃ bs1 bs2,
    bitset_set bs i = Done bs1 ∧
    bitset_get bs1 i = Done true ∧
    (∀ j, 0 ≤ j < capacity bs → j ≠ i → bitset_get bs1 j = bitset_get bs j) ∧
    bitset_clear bs1 i = Done bs2 ∧
    bitset_get bs2 i = Done false ∧
    (∀ j, 0 ≤ j < capacity bs → j ≠ i → bitset_get bs2 j = bitset_get bs1 j).
Proof.
  intros Hwf Hi.
  destruct (bitset_set_valid bs i Hwf Hi) as (w & _ & Hset).
  set (bs1 := {| capacity := capacity bs |}) in Hset.
  assert (Hwf1 : wf bs1) by (eapply wf_set; eassumption).
  assert (Hi1 : 0 ≤ i < capacity bs1) by exact Hi.
  destruct (bitset_clear_valid bs1 i Hwf1 Hi1) as (w1 & _ & Hclear).
  set (bs2 := {| capacity := capacity bs1 |}) in Hclear.
  assert (Hwf2 : wf bs2) by (eapply wf_clear; eassumption).
  exists bs1, bs2. repeat split; try assumption.
  - rewrite bitset_get_valid by assumption.
    rewrite (stored_bit_set bs i bs1) by (assumption || lia).
    now rewrite Z.eqb_refl.
  - intros j Hj Hne. rewrite !bitset_get_valid by assumption.
    rewrite (stored_bit_set bs i bs1) by (assumption || lia).
    destruct (Z.eqb_spec j i); [lia | reflexivity].
  - rewrite bitset_get_valid by assumption.
    rewrite (stored_bit_clear bs1 i bs2) by (assumption || lia).
    now rewrite Z.eqb_refl.
  - intros j Hj Hne. rewrite !bitset_get_valid by assumption.
    rewrite (stored_bit_clear bs1 i bs2) by (assumption || lia).
    destruct (Z.eqb_spec j i); [lia | reflexivity].
Qed.

(** C8: in every bitset reachable from construction by [bitset_set],
    [bitset_clear] and [bitset_reset] with valid indices, every position
    from [capacity] on inside the allocated words holds 0. *)
Theorem padding_is_zero bs i :
  reachable bs → capacity bs ≤ i < 64 * nchunks bs → stored_bit bs i = false.
Proof.
  intros Hreach Hi. apply (wf_padding bs (reachable_wf bs Hreach)). exact Hi.
Qed.

(** C10: for every bitset and every valid index [i], the word offset
    [i / 64] that [bitset_set], [bitset_clear] and [bitset_get] use is
    below the number of allocated words, [ceil(capacity / 64)], and the
    three operations complete: none of them leaves the storage. *)
Theorem valid_index_in_storage bs i :
  wf bs → 0 ≤ i < capacity bs →
  nchunks bs = (capacity bs + 63) / 64 ∧
  Z.of_nat (length (chunks bs)) = nchunks bs ∧
  0 ≤ Z.quot i 64 < nchunks bs ∧
  (∃ bs', bitset_set bs i = Done bs') ∧
  (∃ bs', bitset_clear bs i = Done bs') ∧
  (∃ b, bitset_get bs i = Done b).
Proof.
  intros Hwf Hi.
  split; [apply (wf_nchunks bs Hwf)|].
  split; [apply (wf_length bs Hwf)|].
  split.
  { destruct (index_split i) as [-> _]; [lia|]. now apply chunk_in_storage. }
  split; [|split].
  - destruct (bitset_set_valid bs i Hwf Hi) as (w & _ & ->). eauto.
  - destruct (bitset_clear_valid bs i Hwf Hi) as (w & _ & ->). eauto.
  - rewrite bitset_get_valid by assumption. eauto.
Qed.

(** C2: an index below 0 passes [index_check], which compares against
    [capacity] only, although its own message names the range
    [[0, capacity)]: the three operations go on to the shift and the
    storage access instead of signalling [IndexOutOfRange]. *)
Theorem negative_index_not_rejected :
  ∃ bs,
    bitset_of 10 [] = Done bs ∧
    index_check bs (-1) = Done tt ∧
    bitset_set bs (-1) = Undefined (ShiftCount (-1)) ∧
    bitset_clear bs (-1) = Undefined (ShiftCount (-1)) ∧
    bitset_get bs (-1) = Undefined (ShiftCount (-1)) ∧
    bitset_set bs (-64) = Undefined (OutsideStorage (-1)) ∧
    bitset_get bs (-64) = Undefined (OutsideStorage (-1)) ∧
    bitset_set bs 10 = Exit IndexOutOfRange.
Proof. eexists. split; [reflexivity|]. repeat split; vm_compute; reflexivity. Qed.

(** C1: on the bitset of capacity 64 with bit 0 stored, built by the
    operations, the stateless enumeration yields the stored positions, but
    the cursor reads the word after the one-word storage (offset 1 is the
    last entry of its trace), and when bit 0 of that word is set it yields
    64 after 0, a position that is not in [[0, capacity)]. *)
Theorem cursor_yields_capacity :
  ∃ bs,
    bitset_of 64 [0] = Done bs ∧
    nchunks bs = 1 ∧ length (chunks bs) = 1%nat ∧
    set_indices bs = [0] ∧
    result (enumerate2_elems (λ _, 1) bs) = Some [0] ∧
    result (enumerate_elems (λ _, 1) bs) = Some [0; 64] ∧
    result (enumerate_elems (λ _, 0) bs) = Some [0] ∧
    (last <$> reads (enumerate_elems (λ _, 0) bs)) = Some (Some 1).
Proof.
  eexists. split; [reflexivity|]. repeat split; vm_compute; reflexivity.
Qed.

(** C3: at capacity 64 the storage is one word, and both forms read the
    word after it: the stateless scan of the empty bitset from 0, be that
    word 0 or 1, and the second advance of a cursor over the bitset with
    bit 63 stored, which returns 64 when bit 0 of that word is set. *)
Theorem scans_read_past_storage :
  ∃ bs0 bs63,
    bitset_of 64 [] = Done bs0 ∧ nchunks bs0 = 1 ∧ length (chunks bs0) = 1%nat ∧
    result (bitset_next_set_bit (λ _, 0) bs0 0) = Some (-1) ∧
    (last <$> reads (bitset_next_set_bit (λ _, 0) bs0 0)) = Some (Some 1) ∧
    (last <$> reads (bitset_next_set_bit (λ _, 1) bs0 0)) = Some (Some 1) ∧
    bitset_of 64 [63] = Done bs63 ∧ nchunks bs63 = 1 ∧ length (chunks bs63) = 1%nat ∧
    let bsi := {| iter_chunk := 0; iter_mask := 2 ^ 63; iter_index := 63;
                  iter_capacity := 64 |} in
    result (bitset_iter_next (storage (λ _, 1) bs63) (bitset_iter_begin bs63))
      = Some (bsi, 63) ∧
    bitset_iter_next (storage (λ _, 0) bs63) bsi
      = Some ([1],
              ({| iter_chunk := 2; iter_mask := 1; iter_index := 128;
                  iter_capacity := 64 |}, -1)) ∧
    bitset_iter_next (storage (λ _, 1) bs63) bsi
      = Some ([1; 1],
              ({| iter_chunk := 1; iter_mask := 1; iter_index := 64;
                  iter_capacity := 64 |}, 64)).
Proof.
  eexists _, _.
  split; [reflexivity|]. split; [reflexivity|]. split; [reflexivity|].
  split; [vm_compute; reflexivity|]. split; [vm_compute; reflexivity|].
  split; [vm_compute; reflexivity|].
  split; [reflexivity|]. split; [reflexivity|]. split; [reflexivity|].
  repeat split; vm_compute; reflexivity.
Qed.

(** C5: on a bitset of capacity 128 with bits 5 and 127 stored, the cursor
    and the stateless scan agree on the first two results and differ on the
    third when bit 0 of the word after the storage is set: the cursor
    returns 128 where the scan returns -1. *)
Theorem cursor_differs_from_scan :
  ∃ bs,
    bitset_of 128 [5; 127] = Done bs ∧
    result (enumerate2_elems (λ _, 1) bs) = Some [5; 127] ∧
    result (bitset_next_set_bit (λ _, 1) bs 128) = Some (-1) ∧
    result (enumerate_elems (λ _, 1) bs) = Some [5; 127; 128].
Proof. eexists. split; [reflexivity|]. repeat split; vm_compute; reflexivity. Qed.

(** C9: at capacity 0 construction gives a bitset without words and the
    stateless scan returns -1 without a read; but a negative index passes
    [index_check], and the first advance of a cursor reads the word at
    offset 0, which is not there, and returns 0 when bit 0 of what it finds
    is set. *)
Theorem capacity_zero_cursor_reads :
  ∃ bs,
    bitset_new true (Some (fresh_block 0)) 0 = Done bs ∧
    nchunks bs = 0 ∧ chunks bs = [] ∧
    bitset_next_set_bit (λ _, 1) bs 0 = Some ([], -1) ∧
    bitset_get bs 0 = Exit IndexOutOfRange ∧
    bitset_get bs (-1) = Undefined (ShiftCount (-1)) ∧
    bitset_set bs (-1) = Undefined (ShiftCount (-1)) ∧
    bitset_iter_next (storage (λ _, 0) bs) (bitset_iter_begin bs)
      = Some ([0],
              ({| iter_chunk := 1; iter_mask := 1; iter_index := 64;
                  iter_capacity := 0 |}, -1)) ∧
    bitset_iter_next (storage (λ _, 1) bs) (bitset_iter_begin bs)
      = Some ([0; 0],
              ({| iter_chunk := 0; iter_mask := 1; iter_index := 0;
                  iter_capacity := 0 |}, 0)) ∧
    result (enumerate_elems (λ _, 1) bs) = Some [0].
Proof. eexists. split; [reflexivity|]. repeat split; vm_compute; reflexivity. Qed.

(** ** The theorems at concrete bitsets *)

Lemma reachable_bs_0_3_9 : reachable bs_0_3_9.
Proof.
  apply (reachable_set {| capacity := 10; nchunks := 1; chunks := [9] |} 9);
    [|cbn; lia|reflexivity].
  apply (reachable_set {| capacity := 10; nchunks := 1; chunks := [1] |} 3);
    [|cbn; lia|reflexivity].
  apply (reachable_set {| capacity := 10; nchunks := 1; chunks := [0] |} 0);
    [|cbn; lia|reflexivity].
  apply (reachable_new (fresh_block 10) 10); [unfold INT_MAX; lia | reflexivity].
Defined.

Lemma next_set_bit_from_capacity_witness :
  capacity bs_0_3_9 ≤ 10 ∧
  bitset_next_set_bit (λ _, 0) bs_0_3_9 10 = Some ([], -1).
Proof.
  assert (H : capacity bs_0_3_9 ≤ 10) by (cbn; lia).
  split; [exact H | apply next_set_bit_from_capacity, H].
Defined.

Lemma set_clear_frame_witness :
  wf bs_0_3_9 ∧ 0 ≤ 5 < capacity bs_0_3_9 ∧
  ∃ bs1 bs2,
    bitset_set bs_0_3_9 5 = Done bs1 ∧
    bitset_get bs1 5 = Done true ∧
    (∀ j, 0 ≤ j < capacity bs_0_3_9 → j ≠ 5 →
          bitset_get bs1 j = bitset_get bs_0_3_9 j) ∧
    bitset_clear bs1 5 = Done bs2 ∧
    bitset_get bs2 5 = Done false ∧
    (∀ j, 0 ≤ j < capacity bs_0_3_9 → j ≠ 5 → bitset_get bs2 j = bitset_get bs1 j).
Proof.
  assert (Hwf : wf bs_0_3_9) by apply reachable_wf, reachable_bs_0_3_9.
  assert (Hi : 0 ≤ 5 < capacity bs_0_3_9) by (cbn; lia).
  split; [exact Hwf|]. split; [exact Hi|].
  exact (set_clear_frame bs_0_3_9 5 Hwf Hi).
Defined.

Lemma padding_is_zero_witness :
  reachable bs_0_3_9 ∧ capacity bs_0_3_9 ≤ 10 < 64 * nchunks bs_0_3_9 ∧
  stored_bit bs_0_3_9 10 = false.
Proof.
  assert (Hi : capacity bs_0_3_9 ≤ 10 < 64 * nchunks bs_0_3_9) by (cbn; lia).
  split; [exact reachable_bs_0_3_9|]. split; [exact Hi|].
  exact (padding_is_zero bs_0_3_9 10 reachable_bs_0_3_9 Hi).
Defined.

Lemma valid_index_in_storage_witness :
  wf bs_0_3_9 ∧ 0 ≤ 9 < capacity bs_0_3_9 ∧
  nchunks bs_0_3_9 = (capacity bs_0_3_9 + 63) / 64 ∧
  Z.of_nat (length (chunks bs_0_3_9)) = nchunks bs_0_3_9 ∧
  0 ≤ Z.quot 9 64 < nchunks bs_0_3_9 ∧
  (∃ bs', bitset_set bs_0_3_9 9 = Done bs') ∧
  (∃ bs', bitset_clear bs_0_3_9 9 = Done bs') ∧
  (∃ b, bitset_get bs_0_3_9 9 = Done b).
Proof.
  assert (Hwf : wf bs_0_3_9) by apply reachable_wf, reachable_bs_0_3_9.
  assert (Hi : 0 ≤ 9 < capacity bs_0_3_9) by (cbn; lia).
  split; [exact Hwf|]. split; [exact Hi|].
  exact (valid_index_in_storage bs_0_3_9 9 Hwf Hi).
Defined.

(** * Further properties of the code *)

(** ** Construction and reset *)

Lemma bitset_new_init block c : bitset_new true block c = bitset_init block c.
Proof. reflexivity. Qed.

Lemma bitset_get_reset bs i :
  wf bs → 0 ≤ i < capacity bs → bitset_get (bitset_reset bs) i = Done false.
Proof.
  intros Hwf Hi.
  assert (Hwf' : wf (bitset_reset bs))
    by (apply wf_reset; [apply (wf_capacity bs Hwf) | apply (wf_nchunks bs Hwf)]).
  rewrite bitset_get_valid by assumption.
  f_equal. apply stored_bit_replicate.
Qed.

(** X1: [bitset_new] with both allocations granted, at a capacity in
    [[0, INT_MAX]], returns a bitset of that capacity with
    [ceil(capacity / 64)] words, whatever the fresh block held, and
    [bitset_get] reads false at every valid index. *)
Theorem fresh_bitset_is_empty block c :
  0 ≤ c ≤ INT_MAX →
  ∃ bs,
    bitset_new true (Some block) c = Done bs ∧
    capacity bs = c ∧
    nchunks bs = (c + 63) / 64 ∧
    Z.of_nat (length (chunks bs)) = nchunks bs ∧
    ∀ i, 0 ≤ i < c → bitset_get bs i = Done false.
Proof.
  intros Hc.
  destruct (bitset_new true (Some block) c) as [bs| |] eqn:E; try discriminate.
  assert (Hwf : wf bs) by (eapply wf_init; eassumption).
  assert (Hcap : capacity bs = c) by (injection E as <-; reflexivity).
  exists bs. split; [reflexivity|]. split; [assumption|].
  split; [rewrite <- Hcap; apply (wf_nchunks bs Hwf)|].
  split; [apply (wf_length bs Hwf)|].
  intros i Hi. rewrite bitset_get_valid by (assumption || lia).
  f_equal. injection E as <-. apply stored_bit_replicate.
Qed.

(** X2: [bitset_reset] keeps the capacity and the number of words, leaves a
    bitset of the data model in which [bitset_get] reads false at every
    valid index, and doing it twice is doing it once. *)
Theorem reset_clears_every_bit bs :
  wf bs →
  wf (bitset_reset bs) ∧
  capacity (bitset_reset bs) = capacity bs ∧
  nchunks (bitset_reset bs) = nchunks bs ∧
  (∀ i, 0 ≤ i < capacity bs → bitset_get (bitset_reset bs) i = Done false) ∧
  bitset_reset (bitset_reset bs) = bitset_reset bs.
Proof.
  intros Hwf.
  split; [apply wf_reset; [apply (wf_capacity bs Hwf) | apply (wf_nchunks bs Hwf)]|].
  split; [reflexivity|]. split; [reflexivity|].
  split; [intros i Hi; now apply bitset_get_reset | reflexivity].
Qed.

(** ** Extensionality *)

Lemma word_ext w1 w2 :
  0 ≤ w1 < 2 ^ 64 → 0 ≤ w2 < 2 ^ 64 →
  (∀ n, 0 ≤ n < 64 → Z.testbit w1 n = Z.testbit w2 n) → w1 = w2.
Proof.
  intros H1 H2 Hbits. apply Z.bits_inj'. intros n Hn.
  destruct (Z.lt_ge_cases n 64); [apply Hbits; lia|].
  now rewrite !word_bits_high by lia.
Qed.

Lemma stored_bit_lookup bs k w n :
  0 ≤ n < 64 → chunks bs !! k = Some w →
  stored_bit bs (64 * Z.of_nat k + n) = Z.testbit w n.
Proof.
  intros Hn Hw. unfold stored_bit.
  rewrite (chunk_of_position (Z.of_nat k)) by lia.
  rewrite Nat2Z.id, Hw. cbn. f_equal.
  symmetry. apply Z.mod_unique with (q := Z.of_nat k); lia.
Qed.

Lemma bitset_ext bs1 bs2 :
  wf bs1 → wf bs2 → capacity bs1 = capacity bs2 →
  (∀ i, 0 ≤ i < capacity bs1 → stored_bit bs1 i = stored_bit bs2 i) →
  bs1 = bs2.
Proof.
  intros Hwf1 Hwf2 Hcap Hbits.
  assert (Hn : nchunks bs1 = nchunks bs2).
  { rewrite (wf_nchunks bs1 Hwf1), (wf_nchunks bs2 Hwf2). now rewrite Hcap. }
  assert (Hall : ∀ i, 0 ≤ i < 64 * nchunks bs1 → stored_bit bs1 i = stored_bit bs2 i).
  { intros i Hi. destruct (Z.lt_ge_cases i (capacity bs1)); [apply Hbits; lia|].
    rewrite (wf_padding bs1 Hwf1), (wf_padding bs2 Hwf2) by lia. reflexivity. }
  assert (Hchunks : chunks bs1 = chunks bs2).
  { apply list_eq. intros k.
    pose proof (wf_length bs1 Hwf1) as Hl1. pose proof (wf_length bs2 Hwf2) as Hl2.
    destruct (chunks bs1 !! k) as [w1|] eqn:E1.
    - pose proof (lookup_lt_Some _ _ _ E1) as Hk.
      destruct (lookup_lt_is_Some_2 (chunks bs2) k) as [w2 E2]; [lia|].
      rewrite E2. f_equal. apply word_ext.
      + exact (proj1 (Forall_lookup _ _) (wf_words bs1 Hwf1) _ _ E1).
      + exact (proj1 (Forall_lookup _ _) (wf_words bs2 Hwf2) _ _ E2).
      + intros n Hn'.
        rewrite <- (stored_bit_lookup bs1 k w1 n Hn' E1).
        rewrite <- (stored_bit_lookup bs2 k w2 n Hn' E2).
        apply Hall. lia.
    - apply lookup_ge_None in E1. symmetry. apply lookup_ge_None. lia. }
  destruct bs1, bs2; cbn in *. congruence.
Qed.

(** X3: two bitsets of the data model with the same capacity on which
    [bitset_get] agrees at every valid index are the same bitset, word for
    word: the padding carries no information. *)
Theorem bitset_get_extensional bs1 bs2 :
  wf bs1 → wf bs2 → capacity bs1 = capacity bs2 →
  (∀ i, 0 ≤ i < capacity bs1 → bitset_get bs1 i = bitset_get bs2 i) →
  bs1 = bs2.
Proof.
  intros Hwf1 Hwf2 Hcap Hget. apply bitset_ext; try assumption.
  intros i Hi. specialize (Hget i Hi).
  rewrite !bitset_get_valid in Hget by (assumption || lia). congruence.
Qed.

(** ** The algebra of [bitset_set] and [bitset_clear] *)

Lemma bitset_set_ex bs i :
  wf bs → 0 ≤ i < capacity bs →
  ∃ bs', bitset_set bs i = Done bs' ∧ wf bs' ∧ capacity bs' = capacity bs ∧
         ∀ j, 0 ≤ j → stored_bit bs' j = (j =? i) || stored_bit bs j.
Proof.
  intros Hwf Hi. destruct (bitset_set_valid bs i Hwf Hi) as (w & _ & E).
  eexists. split; [exact E|]. split; [eapply wf_set; eassumption|].
  split; [reflexivity|]. intros j Hj. now apply (stored_bit_set bs i).
Qed.

Lemma bitset_clear_ex bs i :
  wf bs → 0 ≤ i < capacity bs →
  ∃ bs', bitset_clear bs i = Done bs' ∧ wf bs' ∧ capacity bs' = capacity bs ∧
         ∀ j, 0 ≤ j → stored_bit bs' j = negb (j =? i) && stored_bit bs j.
Proof.
  intros Hwf Hi. destruct (bitset_clear_valid bs i Hwf Hi) as (w & _ & E).
  eexists. split; [exact E|]. split; [eapply wf_clear; eassumption|].
  split; [reflexivity|]. intros j Hj. now apply (stored_bit_clear bs i).
Qed.

(** X4: at a valid index, a second [bitset_set] leaves the bitset the first
    one made unchanged, and likewise a second [bitset_clear]. *)
Theorem set_clear_idempotent bs i :
  wf bs → 0 ≤ i < capacity bs →
  (∃ bs1, bitset_set bs i = Done bs1 ∧ bitset_set bs1 i = Done bs1) ∧
  (∃ bs1, bitset_clear bs i = Done bs1 ∧ bitset_clear bs1 i = Done bs1).
Proof.
  intros Hwf Hi. split.
  - destruct (bitset_set_ex bs i Hwf Hi) as (bs1 & E1 & Hwf1 & Hc1 & Hb1).
    destruct (bitset_set_ex bs1 i Hwf1) as (bs2 & E2 & Hwf2 & Hc2 & Hb2); [lia|].
    exists bs1. split; [assumption|]. rewrite E2. f_equal.
    apply bitset_ext; [assumption..|lia|].
    intros j Hj. rewrite Hb2, !Hb1 by lia. bits_eq.
  - destruct (bitset_clear_ex bs i Hwf Hi) as (bs1 & E1 & Hwf1 & Hc1 & Hb1).
    destruct (bitset_clear_ex bs1 i Hwf1) as (bs2 & E2 & Hwf2 & Hc2 & Hb2); [lia|].
    exists bs1. split; [assumption|]. rewrite E2. f_equal.
    apply bitset_ext; [assumption..|lia|].
    intros j Hj. rewrite Hb2, !Hb1 by lia. bits_eq.
Qed.

(** X5: at a valid index, [bitset_set] of a bit that reads true and
    [bitset_clear] of a bit that reads false return the bitset unchanged. *)
Theorem set_clear_noop bs i :
  wf bs → 0 ≤ i < capacity bs →
  (bitset_get bs i = Done true → bitset_set bs i = Done bs) ∧
  (bitset_get bs i = Done false → bitset_clear bs i = Done bs).
Proof.
  intros Hwf Hi. rewrite bitset_get_valid by assumption. split; intros Hbit.
  - destruct (bitset_set_ex bs i Hwf Hi) as (bs1 & E1 & Hwf1 & Hc1 & Hb1).
    rewrite E1. f_equal. apply bitset_ext; [assumption..|].
    intros j Hj. rewrite Hc1 in Hj. rewrite Hb1 by lia.
    destruct (Z.eqb_spec j i) as [->|]; [|reflexivity]. cbn. congruence.
  - destruct (bitset_clear_ex bs i Hwf Hi) as (bs1 & E1 & Hwf1 & Hc1 & Hb1).
    rewrite E1. f_equal. apply bitset_ext; [assumption..|].
    intros j Hj. rewrite Hc1 in Hj. rewrite Hb1 by lia.
    destruct (Z.eqb_spec j i) as [->|]; [|reflexivity]. cbn. congruence.
Qed.

(** X6: at a valid index whose bit reads false, [bitset_set] followed by
    [bitset_clear] gives the original bitset back; where it reads true,
    [bitset_clear] followed by [bitset_set] does. *)
Theorem set_clear_round_trip bs i :
  wf bs → 0 ≤ i < capacity bs →
  (bitset_get bs i = Done false →
   ∃ bs1, bitset_set bs i = Done bs1 ∧ bitset_clear bs1 i = Done bs) ∧
  (bitset_get bs i = Done true →
   ∃ bs1, bitset_clear bs i = Done bs1 ∧ bitset_set bs1 i = Done bs).
Proof.
  intros Hwf Hi. rewrite bitset_get_valid by assumption. split; intros Hbit.
  - destruct (bitset_set_ex bs i Hwf Hi) as (bs1 & E1 & Hwf1 & Hc1 & Hb1).
    destruct (bitset_clear_ex bs1 i Hwf1) as (bs2 & E2 & Hwf2 & Hc2 & Hb2); [lia|].
    exists bs1. split; [assumption|]. rewrite E2. f_equal.
    apply bitset_ext; [assumption..|lia|].
    intros j Hj. rewrite Hb2, Hb1 by lia.
    destruct (Z.eqb_spec j i) as [->|]; [|reflexivity]. cbn. congruence.
  - destruct (bitset_clear_ex bs i Hwf Hi) as (bs1 & E1 & Hwf1 & Hc1 & Hb1).
    destruct (bitset_set_ex bs1 i Hwf1) as (bs2 & E2 & Hwf2 & Hc2 & Hb2); [lia|].
    exists bs1. split; [assumption|]. rewrite E2. f_equal.
    apply bitset_ext; [assumption..|lia|].
    intros j Hj. rewrite Hb2, Hb1 by lia.
    destruct (Z.eqb_spec j i) as [->|]; [|reflexivity]. cbn. congruence.
Qed.

(** X7: at valid indices, two [bitset_set] commute, two [bitset_clear]
    commute, and a [bitset_set] commutes with a [bitset_clear] at a
    different index. *)
Theorem set_clear_commute bs i j :
  wf bs → 0 ≤ i < capacity bs → 0 ≤ j < capacity bs →
  (bs1 ← bitset_set bs i; bitset_set bs1 j) = (bs1 ← bitset_set bs j; bitset_set bs1 i) ∧
  (bs1 ← bitset_clear bs i; bitset_clear bs1 j)
    = (bs1 ← bitset_clear bs j; bitset_clear bs1 i) ∧
  (i ≠ j →
   (bs1 ← bitset_set bs i; bitset_clear bs1 j)
     = (bs1 ← bitset_clear bs j; bitset_set bs1 i)).
Proof.
  intros Hwf Hi Hj.
  destruct (bitset_set_ex bs i Hwf Hi) as (si & Esi & Hwfsi & Hcsi & Hbsi).
  destruct (bitset_set_ex bs j Hwf Hj) as (sj & Esj & Hwfsj & Hcsj & Hbsj).
  destruct (bitset_clear_ex bs i Hwf Hi) as (ci & Eci & Hwfci & Hcci & Hbci).
  destruct (bitset_clear_ex bs j Hwf Hj) as (cj & Ecj & Hwfcj & Hccj & Hbcj).
  destruct (bitset_set_ex si j Hwfsi) as (sij & Esij & Hwfsij & Hcsij & Hbsij); [lia|].
  destruct (bitset_set_ex sj i Hwfsj) as (sji & Esji & Hwfsji & Hcsji & Hbsji); [lia|].
  destruct (bitset_clear_ex ci j Hwfci) as (cij & Ecij & Hwfcij & Hccij & Hbcij); [lia|].
  destruct (bitset_clear_ex cj i Hwfcj) as (cji & Ecji & Hwfcji & Hccji & Hbcji); [lia|].
  destruct (bitset_clear_ex si j Hwfsi) as (sicj & Esicj & Hwfsicj & Hcsicj & Hbsicj); [lia|].
  destruct (bitset_set_ex cj i Hwfcj) as (cjsi & Ecjsi & Hwfcjsi & Hccjsi & Hbcjsi); [lia|].
  rewrite Esi, Esj, Eci, Ecj. cbn. rewrite Esij, Esji, Ecij, Ecji, Esicj, Ecjsi.
  split; [|split; [|intros Hne]]; f_equal; (apply bitset_ext; [assumption..|lia|]);
    intros k Hk.
  - rewrite Hbsij, Hbsji, Hbsi, Hbsj by lia. bits_eq.
  - rewrite Hbcij, Hbcji, Hbci, Hbcj by lia. bits_eq.
  - rewrite Hbsicj, Hbcjsi, Hbsi, Hbcj by lia. bits_eq.
Qed.

(** ** The list of the stored positions *)

Lemma elem_of_set_indices bs i :
  i ∈ set_indices bs ↔ 0 ≤ i < capacity bs ∧ stored_bit bs i = true.
Proof.
  unfold set_indices. rewrite list_elem_of_filter, elem_of_seqZ.
  rewrite Is_true_true. split; intros [? ?]; split; (assumption || lia).
Qed.

Lemma elem_of_set_indices_get bs i :
  wf bs → i ∈ set_indices bs ↔ 0 ≤ i < capacity bs ∧ bitset_get bs i = Done true.
Proof.
  intros Hwf. rewrite elem_of_set_indices. split; intros [Hi Hb]; split; try assumption.
  - rewrite bitset_get_valid by assumption. now f_equal.
  - rewrite bitset_get_valid in Hb by assumption. congruence.
Qed.

Lemma ascending_filter_seqZ (P : Z → Prop) `{!∀ i, Decision (P i)} n :
  ∀ a, ascending (filter P (seqZ a (Z.of_nat n))).
Proof.
  unfold ascending. induction n as [|n IH]; intros a; [constructor|].
  rewrite seqZ_cons by lia. rewrite filter_cons.
  replace (Z.pred (Z.of_nat (S n))) with (Z.of_nat n) by lia.
  destruct (decide (P a)); [|apply IH].
  constructor; [apply IH|].
  apply Forall_forall. intros x Hx.
  apply list_elem_of_filter in Hx as [_ Hx]. apply elem_of_seqZ in Hx. lia.
Qed.

Lemma ascending_set_indices bs : ascending (set_indices bs).
Proof.
  unfold set_indices. destruct (Z.le_gt_cases 0 (capacity bs)).
  - rewrite <- (Z2Nat.id (capacity bs)) by lia. apply ascending_filter_seqZ.
  - replace (seqZ 0 (capacity bs)) with (@nil Z); [constructor|].
    unfold seqZ. now replace (Z.to_nat (capacity bs)) with 0%nat by lia.
Qed.

(** ** [bitset_dump] *)

Lemma set_indices_from_cons bs i :
  i < capacity bs →
  set_indices_from bs i =
  if stored_bit bs i then i :: set_indices_from bs (i + 1) else set_indices_from bs (i + 1).
Proof.
  intros Hi. unfold set_indices_from. rewrite seqZ_cons by lia.
  replace (Z.succ i) with (i + 1) by lia.
  replace (Z.pred (capacity bs - i)) with (capacity bs - (i + 1)) by lia.
  destruct (stored_bit bs i) eqn:E.
  - rewrite filter_cons_True; [reflexivity | now rewrite E].
  - rewrite filter_cons_False; [reflexivity | now rewrite E].
Qed.

Lemma dump_loop_spec bs fuel :
  wf bs →
  ∀ i, 0 ≤ i → (Z.to_nat (capacity bs - i) < fuel)%nat →
       dump_loop fuel bs i = Some (Done (set_indices_from bs i)).
Proof.
  intros Hwf. pose proof (wf_capacity bs Hwf) as Hc.
  induction fuel as [|fuel IH]; intros i Hi Hfuel; [lia|].
  cbn [dump_loop]. destruct (Z.ltb_spec i (capacity bs)) as [Hlt|Hge].
  - rewrite bitset_get_valid by (assumption || lia).
    rewrite int_add_small by lia. rewrite IH by lia.
    now rewrite (set_indices_from_cons bs i Hlt).
  - unfold set_indices_from. do 2 f_equal.
    unfold seqZ. now replace (Z.to_nat (capacity bs - i)) with 0%nat by lia.
Qed.

(** X8: on a bitset of the data model, [bitset_dump] runs to its end
    without leaving the program or the storage, and prints, in ascending
    order and once each, exactly the valid indices at which [bitset_get]
    reads true. *)
Theorem bitset_dump_prints_set_bits bs :
  wf bs →
  ∃ printed,
    bitset_dump bs = Some (Done printed) ∧
    ascending printed ∧
    ∀ i, i ∈ printed ↔ 0 ≤ i < capacity bs ∧ bitset_get bs i = Done true.
Proof.
  intros Hwf. exists (set_indices bs).
  split; [|split; [apply ascending_set_indices|intros i; now apply elem_of_set_indices_get]].
  unfold bitset_dump, scan_fuel. rewrite dump_loop_spec by (assumption || lia).
  now rewrite set_indices_from_0.
Qed.

(** ** The enumerations, in terms of [bitset_get] *)

(** X9: for a capacity of at most [INT_MAX - 64], the loop of
    [bitset_enumerate2] ends, having visited in ascending order exactly the
    valid indices at which [bitset_get] reads true; when the capacity is not
    a multiple of 64 every word it read is in the storage. *)
Theorem enumerate2_visits_set_bits beyond bs :
  wf bs → capacity bs ≤ INT_MAX - 64 →
  ∃ tr elems,
    enumerate2_elems beyond bs = Some (tr, elems) ∧
    ascending elems ∧
    (∀ i, i ∈ elems ↔ 0 ≤ i < capacity bs ∧ bitset_get bs i = Done true) ∧
    (capacity bs mod 64 ≠ 0 → Forall (in_storage bs) tr).
Proof.
  intros Hwf Hcap.
  destruct (enumerate2_elems_spec bs beyond Hwf Hcap) as (tr & E & Htr).
  exists tr, (set_indices bs). split; [assumption|].
  split; [apply ascending_set_indices|].
  split; [intros i; now apply elem_of_set_indices_get | assumption].
Qed.

(** X10: for a capacity of at most [INT_MAX - 64] that is not a multiple of
    64, the loop of [bitset_enumerate] over the cursor ends, having visited
    in ascending order exactly the valid indices at which [bitset_get] reads
    true, and every word it read is in the storage. *)
Theorem enumerate_visits_set_bits beyond bs :
  wf bs → capacity bs ≤ INT_MAX - 64 → capacity bs mod 64 ≠ 0 →
  ∃ tr elems,
    enumerate_elems beyond bs = Some (tr, elems) ∧
    ascending elems ∧
    (∀ i, i ∈ elems ↔ 0 ≤ i < capacity bs ∧ bitset_get bs i = Done true) ∧
    Forall (in_storage bs) tr.
Proof.
  intros Hwf Hcap Hmod.
  destruct (enumerate_elems_spec bs beyond Hwf Hcap Hmod) as (tr & E & Htr).
  exists tr, (set_indices bs). split; [assumption|].
  split; [apply ascending_set_indices|].
  split; [intros i; now apply elem_of_set_indices_get | assumption].
Qed.

(** X11: for a capacity of at most [INT_MAX - 64] and a start index
    [k >= 0], [bitset_next_set_bit] returns: either -1, and [bitset_get]
    reads false from [k] to the capacity, or the first index from [k] on at
    which [bitset_get] reads true; when the capacity is not a multiple of 64
    every word it read is in the storage. *)
Theorem next_set_bit_finds_first beyond bs k :
  wf bs → capacity bs ≤ INT_MAX - 64 → 0 ≤ k →
  ∃ tr r,
    bitset_next_set_bit beyond bs k = Some (tr, r) ∧
    ((r = -1 ∧ ∀ i, k ≤ i < capacity bs → bitset_get bs i = Done false) ∨
     (k ≤ r < capacity bs ∧ bitset_get bs r = Done true ∧
      ∀ i, k ≤ i < r → bitset_get bs i = Done false)) ∧
    (capacity bs mod 64 ≠ 0 → Forall (in_storage bs) tr).
Proof.
  intros Hwf Hcap Hk.
  destruct (bitset_next_set_bit_spec bs beyond k Hwf Hcap Hk) as (tr & r & E & Hr & Htr).
  exists tr, r. split; [assumption|]. split; [|assumption].
  destruct Hr as [[-> Hempty]|(Hrange & Hbit & Hempty)]; [left|right].
  - split; [reflexivity|]. intros i Hi.
    rewrite bitset_get_valid by (assumption || lia). f_equal. apply Hempty. lia.
  - split; [assumption|]. split.
    + rewrite bitset_get_valid by (assumption || lia). now f_equal.
    + intros i Hi. rewrite bitset_get_valid by (assumption || lia).
      f_equal. apply Hempty. lia.
Qed.

(** ** The totals of [bitset_enumerate] and [bitset_enumerate2] *)

Lemma foldl_int_add l :
  Forall (λ i, 0 ≤ i) l →
  ∀ a, 0 ≤ a → a + sum_indices l ≤ INT_MAX →
       foldl int_add a l = a + sum_indices l.
Proof.
  unfold sum_indices.
  induction 1 as [|x l Hx Hl IH]; intros a Ha Hsum; cbn [foldr foldl] in *; [lia|].
  assert (0 ≤ foldr Z.add 0 l).
  { clear -Hl. induction Hl; cbn [foldr]; lia. }
  rewrite int_add_small by lia. rewrite IH by lia. lia.
Qed.

Lemma set_indices_nonneg bs : Forall (λ i, 0 ≤ i) (set_indices bs).
Proof.
  apply Forall_forall. intros i Hi. apply elem_of_set_indices in Hi. lia.
Qed.

(** X12: for a capacity of at most [INT_MAX - 64], [bitset_enumerate2]
    returns the sum of the stored positions, provided that sum is an
    [int]. *)
Theorem bitset_enumerate2_sums_set_bits beyond bs :
  wf bs → capacity bs ≤ INT_MAX - 64 → sum_indices (set_indices bs) ≤ INT_MAX →
  result (bitset_enumerate2 beyond bs) = Some (sum_indices (set_indices bs)).
Proof.
  intros Hwf Hcap Hsum. unfold bitset_enumerate2.
  destruct (enumerate2_elems_spec bs beyond Hwf Hcap) as (tr & -> & _).
  cbn. f_equal. unfold total.
  rewrite foldl_int_add; [lia | apply set_indices_nonneg | lia | lia].
Qed.

(** X13: for a capacity of at most [INT_MAX - 64] that is not a multiple of
    64, [bitset_enumerate] and [bitset_enumerate2] return the same total,
    the sum of the stored positions when that sum is an [int]. *)
Theorem bitset_enumerate_equals_enumerate2 beyond bs :
  wf bs → capacity bs ≤ INT_MAX - 64 → capacity bs mod 64 ≠ 0 →
  ∃ sum,
    result (bitset_enumerate beyond bs) = Some sum ∧
    result (bitset_enumerate2 beyond bs) = Some sum ∧
    (sum_indices (set_indices bs) ≤ INT_MAX → sum = sum_indices (set_indices bs)).
Proof.
  intros Hwf Hcap Hmod. unfold bitset_enumerate, bitset_enumerate2.
  destruct (enumerate_elems_spec bs beyond Hwf Hcap Hmod) as (tr & -> & _).
  destruct (enumerate2_elems_spec bs beyond Hwf Hcap) as (tr2 & -> & _).
  exists (total (set_indices bs)). split; [reflexivity|]. split; [reflexivity|].
  intros Hsum. unfold total.
  rewrite foldl_int_add; [lia | apply set_indices_nonneg | lia | lia].
Qed.

(** ** The cursor, whatever the memory holds *)

Lemma spin_forward_total mem cap fuel :
  cap ≤ INT_MAX - 64 →
  ∀ chunk index,
    0 ≤ index ≤ cap → (Z.to_nat (cap - index) < fuel)%nat →
    ∃ tr (ret : bool) chunk' index',
      spin_forward fuel mem cap chunk index = Some (tr, (ret, chunk', index')) ∧
      index ≤ index' ∧
      if ret then cap ≤ index' else index' ≤ cap.
Proof.
  intros Hcap. induction fuel as [|fuel IH]; intros chunk index Hi Hfuel; [lia|].
  cbn [spin_forward]. rewrite scan_bind_load.
  destruct (mem chunk =? 0).
  - rewrite int_add_small by (unfold INT_MAX in *; lia).
    destruct (Z.geb_spec (index + 64) cap).
    + eexists _, true, _, _. cbn. split; [reflexivity|]. lia.
    + destruct (IH (chunk + 1) (index + 64)) as (tr & ret & c' & i' & E & Hle & Hret);
        [lia..|].
      rewrite E. eexists _, ret, c', i'. split; [reflexivity|].
      split; [lia|assumption].
  - eexists _, false, _, _. cbn. split; [reflexivity|]. lia.
Qed.

Lemma iter_next_loop_total mem fuel :
  ∀ bsi,
    iter_capacity bsi ≤ INT_MAX - 64 → -1 ≤ iter_index bsi →
    (Z.to_nat (iter_capacity bsi - iter_index bsi) < fuel)%nat →
    ∃ tr bsi' r,
      iter_next_loop fuel mem bsi = Some (tr, (bsi', r)) ∧
      iter_capacity bsi' = iter_capacity bsi ∧
      ((r = -1 ∧ iter_capacity bsi ≤ iter_index bsi') ∨
       (r = iter_index bsi' ∧ iter_index bsi < r ≤ iter_capacity bsi)).
Proof.
  induction fuel as [|fuel IH]; intros bsi Hcap Hi Hfuel; [lia|].
  cbn [iter_next_loop].
  destruct (Z.ltb_spec (iter_index bsi) (iter_capacity bsi)) as [Hlt|Hge].
  2:{ eexists _, bsi, (-1). split; [reflexivity|]. split; [reflexivity|]. left. lia. }
  rewrite int_add_small by (unfold INT_MAX in *; lia).
  assert (Htest : ∀ bsi1,
    iter_capacity bsi1 = iter_capacity bsi →
    iter_index bsi < iter_index bsi1 ≤ iter_capacity bsi →
    ∃ tr bsi' r,
      (w ← load mem (iter_chunk bsi1);
       if negb (Z.land (iter_mask bsi1) w =? 0) then mret (bsi1, iter_index bsi1)
       else iter_next_loop fuel mem bsi1) = Some (tr, (bsi', r)) ∧
      iter_capacity bsi' = iter_capacity bsi ∧
      ((r = -1 ∧ iter_capacity bsi ≤ iter_index bsi') ∨
       (r = iter_index bsi' ∧ iter_index bsi < r ≤ iter_capacity bsi))).
  { intros bsi1 Hc1 Hi1. rewrite scan_bind_load.
    destruct (negb (Z.land (iter_mask bsi1) (mem (iter_chunk bsi1)) =? 0)).
    - eexists _, bsi1, _. cbn. split; [reflexivity|]. split; [assumption|]. right. lia.
    - destruct (IH bsi1) as (tr & bsi' & r & E & Hc' & Hr); [lia..|].
      rewrite E. eexists _, bsi', r. split; [reflexivity|].
      split; [congruence|]. rewrite Hc1 in Hr. lia. }
  destruct (shl64 (iter_mask bsi) 1 =? 0).
  - destruct (spin_forward_total mem (iter_capacity bsi) fuel Hcap
                (iter_chunk bsi + 1) (iter_index bsi + 1))
      as (tr & ret & c' & i' & E & Hle & Hret); [lia..|].
    rewrite E, !scan_bind_some. cbn [mret scan_ret]. cbn beta iota.
    destruct ret.
    + eexists _, _, (-1). cbn. split; [reflexivity|]. split; [reflexivity|].
      left. cbn. lia.
    + rewrite scan_bind_some. cbn beta iota.
      destruct (Htest {| iter_chunk := c'; iter_mask := 1; iter_index := i';
                         iter_capacity := iter_capacity bsi |})
        as (tr2 & bsi' & r & E2 & Hc2 & Hr); [reflexivity|cbn; lia|].
      rewrite E2. eexists _, bsi', r. split; [reflexivity|]. split; assumption.
  - rewrite scan_bind_ret. cbn beta iota.
    destruct (Htest {| iter_chunk := iter_chunk bsi;
                       iter_mask := shl64 (iter_mask bsi) 1;
                       iter_index := iter_index bsi + 1;
                       iter_capacity := iter_capacity bsi |})
      as (tr2 & bsi' & r & E2 & Hc2 & Hr); [reflexivity|cbn; lia|].
    exists tr2, bsi', r. split; [assumption|]. split; assumption.
Qed.

(** X14: whatever the memory holds, for a capacity of at most
    [INT_MAX - 64] and a cursor whose index is at least -1,
    [bitset_iter_next] returns, keeps the capacity of the cursor, and
    either returns -1 with the index at or past the capacity, or returns the
    new index of the cursor, which is above the old one and at most the
    capacity. *)
Theorem cursor_advance_envelope mem bsi :
  iter_capacity bsi ≤ INT_MAX - 64 → -1 ≤ iter_index bsi →
  ∃ tr bsi' r,
    bitset_iter_next mem bsi = Some (tr, (bsi', r)) ∧
    iter_capacity bsi' = iter_capacity bsi ∧
    ((r = -1 ∧ iter_capacity bsi ≤ iter_index bsi') ∨
     (r = iter_index bsi' ∧ iter_index bsi < r ≤ iter_capacity bsi)).
Proof.
  intros Hcap Hi. unfold bitset_iter_next, scan_fuel.
  apply iter_next_loop_total; [assumption..|lia].
Qed.


(** ** The cursor against the stateless scan *)

Lemma next_spec_unique bs k r r' : next_spec bs k r → next_spec bs k r' → r = r'.
Proof.
  intros [[-> He]|(Hr & Hb & He)] [[-> He']|(Hr' & Hb' & He')]; try reflexivity.
  - rewrite He in Hb' by lia. discriminate.
  - rewrite He' in Hb by lia. discriminate.
  - destruct (Z.lt_trichotomy r r') as [Hlt|[->|Hgt]]; [|reflexivity|].
    + rewrite He' in Hb by lia. discriminate.
    + rewrite He in Hb' by lia. discriminate.
Qed.

(** X16: for a capacity of at most [INT_MAX - 64] that is not a multiple of
    64, advancing a cursor that stands at position [i] returns what
    [bitset_next_set_bit] returns from [i + 1], and leaves the cursor
    standing at the returned position, or past the capacity after -1. *)
Theorem cursor_advance_is_next_set_bit beyond bs bsi i :
  wf bs → capacity bs ≤ INT_MAX - 64 → capacity bs mod 64 ≠ 0 →
  -1 ≤ i → positioned bs bsi i →
  ∃ tr tr' bsi' r,
    bitset_iter_next (storage beyond bs) bsi = Some (tr, (bsi', r)) ∧
    bitset_next_set_bit beyond bs (i + 1) = Some (tr', r) ∧
    if r >=? 0 then positioned bs bsi' r else capacity bs ≤ iter_index bsi'.
Proof.
  intros Hwf Hcap Hmod Hi Hpos.
  destruct (bitset_iter_next_spec bs beyond i bsi Hwf Hcap Hmod Hi Hpos)
    as (tr & bsi' & r & E & Hr & _ & _ & Hfin).
  destruct (bitset_next_set_bit_spec bs beyond (i + 1) Hwf Hcap)
    as (tr' & r' & E' & Hr' & _); [lia|].
  exists tr, tr', bsi', r. split; [assumption|].
  split; [|assumption]. now rewrite (next_spec_unique bs (i + 1) r r').
Qed.

(** ** Mutation, then enumeration *)


(** ** The cursor over an empty bitset *)




(** ** Where the scans leave the storage *)








(** ** The earlier advance of the cursor *)







(** ** What ends an operation *)

(** X22: [bitset_set], [bitset_clear] and [bitset_get] end the program with
    the range message exactly for the indices at or above the capacity:
    no index below it, negative ones included, is turned away. *)
Theorem index_rejected_iff bs i :
  (bitset_set bs i = Exit IndexOutOfRange ↔ capacity bs ≤ i) ∧
  (bitset_clear bs i = Exit IndexOutOfRange ↔ capacity bs ≤ i) ∧
  (bitset_get bs i = Exit IndexOutOfRange ↔ capacity bs ≤ i).
Proof.
  destruct (Z.le_gt_cases (capacity bs) i) as [Hge|Hlt].
  - destruct (index_at_or_above_capacity bs i Hge) as (Hs & Hc & Hg).
    repeat split; auto.
  - destruct (index_below_capacity_not_rejected bs i Hlt) as (Hs & Hc & Hg).
    repeat split; intros; (contradiction || lia).
Qed.

(** X23: [bitset_new] ends the program with the allocation message exactly
    when [malloc] returns NULL for the struct or for the words; otherwise it
    returns a bitset, and in no case is its behaviour undefined, whatever
    the capacity. *)
Theorem bitset_new_fails_iff self_ok block c :
  (bitset_new self_ok block c = Exit AllocationFailure ↔
   self_ok = false ∨ block = None) ∧
  (self_ok = true → is_Some block → ∃ bs, bitset_new self_ok block c = Done bs) ∧
  ∀ u, bitset_new self_ok block c ≠ Undefined u.
Proof.
  unfold bitset_new, bitset_init. split; [|split].
  - destruct self_ok, block as [ws|];
      (split; [intros H; (discriminate H || auto)
              |intros [H|H]; (discriminate H || reflexivity)]).
  - intros -> [ws ->]. eexists. reflexivity.
  - intros u. destruct self_ok, block as [ws|]; discriminate.
Qed.

(** ** The further properties at concrete bitsets *)

Lemma wf_bs_0_3_9 : wf bs_0_3_9.
Proof. apply reachable_wf, reachable_bs_0_3_9. Qed.



Lemma bs_0_3_9_bounded : capacity bs_0_3_9 ≤ INT_MAX - 64.
Proof. unfold bs_0_3_9, INT_MAX. cbn [capacity]. lia. Qed.

Lemma bs_0_3_9_partial_word : capacity bs_0_3_9 mod 64 ≠ 0.
Proof. vm_compute. discriminate. Qed.


Lemma fresh_bitset_is_empty_witness :
  0 ≤ 10 ≤ INT_MAX ∧
  ∃ bs,
    bitset_new true (Some (fresh_block 10)) 10 = Done bs ∧
    capacity bs = 10 ∧
    nchunks bs = (10 + 63) / 64 ∧
    Z.of_nat (length (chunks bs)) = nchunks bs ∧
    ∀ i, 0 ≤ i < 10 → bitset_get bs i = Done false.
Proof.
  assert (Hc : 0 ≤ 10 ≤ INT_MAX) by (unfold INT_MAX; lia).
  split; [exact Hc|]. exact (fresh_bitset_is_empty (fresh_block 10) 10 Hc).
Defined.

Lemma reset_clears_every_bit_witness :
  wf bs_0_3_9 ∧
  wf (bitset_reset bs_0_3_9) ∧
  capacity (bitset_reset bs_0_3_9) = capacity bs_0_3_9 ∧
  nchunks (bitset_reset bs_0_3_9) = nchunks bs_0_3_9 ∧
  (∀ i, 0 ≤ i < capacity bs_0_3_9 → bitset_get (bitset_reset bs_0_3_9) i = Done false) ∧
  bitset_reset (bitset_reset bs_0_3_9) = bitset_reset bs_0_3_9.
Proof.
  split; [exact wf_bs_0_3_9|]. exact (reset_clears_every_bit bs_0_3_9 wf_bs_0_3_9).
Defined.

Lemma bitset_get_extensional_witness :
  wf bs_0_3_9 ∧ capacity bs_0_3_9 = capacity bs_0_3_9 ∧
  (∀ i, 0 ≤ i < capacity bs_0_3_9 → bitset_get bs_0_3_9 i = bitset_get bs_0_3_9 i) ∧
  bs_0_3_9 = bs_0_3_9.
Proof.
  assert (Hget : ∀ i, 0 ≤ i < capacity bs_0_3_9 →
                      bitset_get bs_0_3_9 i = bitset_get bs_0_3_9 i)
    by (intros i _; reflexivity).
  split; [exact wf_bs_0_3_9|]. split; [reflexivity|]. split; [exact Hget|].
  exact (bitset_get_extensional bs_0_3_9 bs_0_3_9 wf_bs_0_3_9 wf_bs_0_3_9 eq_refl Hget).
Defined.

Lemma set_clear_idempotent_witness :
  wf bs_0_3_9 ∧ 0 ≤ 5 < capacity bs_0_3_9 ∧
  (∃ bs1, bitset_set bs_0_3_9 5 = Done bs1 ∧ bitset_set bs1 5 = Done bs1) ∧
  (∃ bs1, bitset_clear bs_0_3_9 5 = Done bs1 ∧ bitset_clear bs1 5 = Done bs1).
Proof.
  assert (Hi : 0 ≤ 5 < capacity bs_0_3_9) by (cbn; lia).
  split; [exact wf_bs_0_3_9|]. split; [exact Hi|].
  exact (set_clear_idempotent bs_0_3_9 5 wf_bs_0_3_9 Hi).
Defined.

Lemma set_clear_noop_witness :
  wf bs_0_3_9 ∧ 0 ≤ 3 < capacity bs_0_3_9 ∧
  (bitset_get bs_0_3_9 3 = Done true → bitset_set bs_0_3_9 3 = Done bs_0_3_9) ∧
  (bitset_get bs_0_3_9 3 = Done false → bitset_clear bs_0_3_9 3 = Done bs_0_3_9).
Proof.
  assert (Hi : 0 ≤ 3 < capacity bs_0_3_9) by (cbn; lia).
  split; [exact wf_bs_0_3_9|]. split; [exact Hi|].
  exact (set_clear_noop bs_0_3_9 3 wf_bs_0_3_9 Hi).
Defined.

Lemma set_clear_round_trip_witness :
  wf bs_0_3_9 ∧ 0 ≤ 5 < capacity bs_0_3_9 ∧
  (bitset_get bs_0_3_9 5 = Done false →
   ∃ bs1, bitset_set bs_0_3_9 5 = Done bs1 ∧ bitset_clear bs1 5 = Done bs_0_3_9) ∧
  (bitset_get bs_0_3_9 5 = Done true →
   ∃ bs1, bitset_clear bs_0_3_9 5 = Done bs1 ∧ bitset_set bs1 5 = Done bs_0_3_9).
Proof.
  assert (Hi : 0 ≤ 5 < capacity bs_0_3_9) by (cbn; lia).
  split; [exact wf_bs_0_3_9|]. split; [exact Hi|].
  exact (set_clear_round_trip bs_0_3_9 5 wf_bs_0_3_9 Hi).
Defined.

Lemma set_clear_commute_witness :
  wf bs_0_3_9 ∧ 0 ≤ 3 < capacity bs_0_3_9 ∧ 0 ≤ 5 < capacity bs_0_3_9 ∧
  (bs1 ← bitset_set bs_0_3_9 3; bitset_set bs1 5)
    = (bs1 ← bitset_set bs_0_3_9 5; bitset_set bs1 3) ∧
  (bs1 ← bitset_clear bs_0_3_9 3; bitset_clear bs1 5)
    = (bs1 ← bitset_clear bs_0_3_9 5; bitset_clear bs1 3) ∧
  (3 ≠ 5 →
   (bs1 ← bitset_set bs_0_3_9 3; bitset_clear bs1 5)
     = (bs1 ← bitset_clear bs_0_3_9 5; bitset_set bs1 3)).
Proof.
  assert (Hi : 0 ≤ 3 < capacity bs_0_3_9) by (cbn; lia).
  assert (Hj : 0 ≤ 5 < capacity bs_0_3_9) by (cbn; lia).
  split; [exact wf_bs_0_3_9|]. split; [exact Hi|]. split; [exact Hj|].
  exact (set_clear_commute bs_0_3_9 3 5 wf_bs_0_3_9 Hi Hj).
Defined.

Lemma bitset_dump_prints_set_bits_witness :
  wf bs_0_3_9 ∧
  ∃ printed,
    bitset_dump bs_0_3_9 = Some (Done printed) ∧
    ascending printed ∧
    ∀ i, i ∈ printed ↔ 0 ≤ i < capacity bs_0_3_9 ∧ bitset_get bs_0_3_9 i = Done true.
Proof.
  split; [exact wf_bs_0_3_9|].
  exact (bitset_dump_prints_set_bits bs_0_3_9 wf_bs_0_3_9).
Defined.

Lemma enumerate2_visits_set_bits_witness :
  wf bs_0_3_9 ∧ capacity bs_0_3_9 ≤ INT_MAX - 64 ∧
  ∃ tr elems,
    enumerate2_elems (λ _, 0) bs_0_3_9 = Some (tr, elems) ∧
    ascending elems ∧
    (∀ i, i ∈ elems ↔ 0 ≤ i < capacity bs_0_3_9 ∧ bitset_get bs_0_3_9 i = Done true) ∧
    (capacity bs_0_3_9 mod 64 ≠ 0 → Forall (in_storage bs_0_3_9) tr).
Proof.
  split; [exact wf_bs_0_3_9|]. split; [exact bs_0_3_9_bounded|].
  exact (enumerate2_visits_set_bits (λ _, 0) bs_0_3_9 wf_bs_0_3_9 bs_0_3_9_bounded).
Defined.

Lemma enumerate_visits_set_bits_witness :
  wf bs_0_3_9 ∧ capacity bs_0_3_9 ≤ INT_MAX - 64 ∧ capacity bs_0_3_9 mod 64 ≠ 0 ∧
  ∃ tr elems,
    enumerate_elems (λ _, 0) bs_0_3_9 = Some (tr, elems) ∧
    ascending elems ∧
    (∀ i, i ∈ elems ↔ 0 ≤ i < capacity bs_0_3_9 ∧ bitset_get bs_0_3_9 i = Done true) ∧
    Forall (in_storage bs_0_3_9) tr.
Proof.
  split; [exact wf_bs_0_3_9|]. split; [exact bs_0_3_9_bounded|].
  split; [exact bs_0_3_9_partial_word|].
  exact (enumerate_visits_set_bits (λ _, 0) bs_0_3_9 wf_bs_0_3_9 bs_0_3_9_bounded
           bs_0_3_9_partial_word).
Defined.

Lemma next_set_bit_finds_first_witness :
  wf bs_0_3_9 ∧ capacity bs_0_3_9 ≤ INT_MAX - 64 ∧ 0 ≤ 4 ∧
  ∃ tr r,
    bitset_next_set_bit (λ _, 0) bs_0_3_9 4 = Some (tr, r) ∧
    ((r = -1 ∧ ∀ i, 4 ≤ i < capacity bs_0_3_9 → bitset_get bs_0_3_9 i = Done false) ∨
     (4 ≤ r < capacity bs_0_3_9 ∧ bitset_get bs_0_3_9 r = Done true ∧
      ∀ i, 4 ≤ i < r → bitset_get bs_0_3_9 i = Done false)) ∧
    (capacity bs_0_3_9 mod 64 ≠ 0 → Forall (in_storage bs_0_3_9) tr).
Proof.
  assert (Hk : 0 ≤ 4) by lia.
  split; [exact wf_bs_0_3_9|]. split; [exact bs_0_3_9_bounded|]. split; [exact Hk|].
  exact (next_set_bit_finds_first (λ _, 0) bs_0_3_9 4 wf_bs_0_3_9 bs_0_3_9_bounded Hk).
Defined.

Lemma bitset_enumerate2_sums_set_bits_witness :
  wf bs_0_3_9 ∧ capacity bs_0_3_9 ≤ INT_MAX - 64 ∧
  sum_indices (set_indices bs_0_3_9) ≤ INT_MAX ∧
  result (bitset_enumerate2 (λ _, 0) bs_0_3_9) = Some (sum_indices (set_indices bs_0_3_9)).
Proof.
  assert (Hsum : sum_indices (set_indices bs_0_3_9) ≤ INT_MAX)
    by (vm_compute; discriminate).
  split; [exact wf_bs_0_3_9|]. split; [exact bs_0_3_9_bounded|]. split; [exact Hsum|].
  exact (bitset_enumerate2_sums_set_bits (λ _, 0) bs_0_3_9 wf_bs_0_3_9
           bs_0_3_9_bounded Hsum).
Defined.

Lemma bitset_enumerate_equals_enumerate2_witness :
  wf bs_0_3_9 ∧ capacity bs_0_3_9 ≤ INT_MAX - 64 ∧ capacity bs_0_3_9 mod 64 ≠ 0 ∧
  ∃ sum,
    result (bitset_enumerate (λ _, 0) bs_0_3_9) = Some sum ∧
    result (bitset_enumerate2 (λ _, 0) bs_0_3_9) = Some sum ∧
    (sum_indices (set_indices bs_0_3_9) ≤ INT_MAX →
     sum = sum_indices (set_indices bs_0_3_9)).
Proof.
  split; [exact wf_bs_0_3_9|]. split; [exact bs_0_3_9_bounded|].
  split; [exact bs_0_3_9_partial_word|].
  exact (bitset_enumerate_equals_enumerate2 (λ _, 0) bs_0_3_9 wf_bs_0_3_9
           bs_0_3_9_bounded bs_0_3_9_partial_word).
Defined.

Lemma cursor_advance_envelope_witness :
  iter_capacity (bitset_iter_begin bs_0_3_9) ≤ INT_MAX - 64 ∧
  -1 ≤ iter_index (bitset_iter_begin bs_0_3_9) ∧
  ∃ tr bsi' r,
    bitset_iter_next (λ _, 0) (bitset_iter_begin bs_0_3_9) = Some (tr, (bsi', r)) ∧
    iter_capacity bsi' = iter_capacity (bitset_iter_begin bs_0_3_9) ∧
    ((r = -1 ∧ iter_capacity (bitset_iter_begin bs_0_3_9) ≤ iter_index bsi') ∨
     (r = iter_index bsi' ∧
      iter_index (bitset_iter_begin bs_0_3_9) < r
        ≤ iter_capacity (bitset_iter_begin bs_0_3_9))).
Proof.
  assert (Hi : -1 ≤ iter_index (bitset_iter_begin bs_0_3_9)) by (cbn; lia).
  split; [exact bs_0_3_9_bounded|]. split; [exact Hi|].
  exact (cursor_advance_envelope (λ _, 0) (bitset_iter_begin bs_0_3_9)
           bs_0_3_9_bounded Hi).
Defined.


Lemma cursor_advance_is_next_set_bit_witness :
  wf bs_0_3_9 ∧ capacity bs_0_3_9 ≤ INT_MAX - 64 ∧ capacity bs_0_3_9 mod 64 ≠ 0 ∧
  -1 ≤ -1 ∧ positioned bs_0_3_9 (bitset_iter_begin bs_0_3_9) (-1) ∧
  ∃ tr tr' bsi' r,
    bitset_iter_next (storage (λ _, 0) bs_0_3_9) (bitset_iter_begin bs_0_3_9)
      = Some (tr, (bsi', r)) ∧
    bitset_next_set_bit (λ _, 0) bs_0_3_9 (-1 + 1) = Some (tr', r) ∧
    if r >=? 0 then positioned bs_0_3_9 bsi' r else capacity bs_0_3_9 ≤ iter_index bsi'.
Proof.
  assert (Hi : -1 ≤ -1) by lia.
  split; [exact wf_bs_0_3_9|]. split; [exact bs_0_3_9_bounded|].
  split; [exact bs_0_3_9_partial_word|]. split; [exact Hi|].
  split; [exact (positioned_begin bs_0_3_9)|].
  exact (cursor_advance_is_next_set_bit (λ _, 0) bs_0_3_9 (bitset_iter_begin bs_0_3_9)
           (-1) wf_bs_0_3_9 bs_0_3_9_bounded bs_0_3_9_partial_word Hi
           (positioned_begin bs_0_3_9)).
Defined.





